(** * Dishwasher rotation by load: the rotation / credit / PIN state machine

    A shallow embedding of [roommate_dishwasher_web_app_rotation_by_load.js]
    (the React component [DishwasherApp]) and the properties of its state
    machine.

    Modelling conventions.
    - A JavaScript string is a [string]: a sequence of code units below 256.
      [trim] removes the white space and line terminators of ECMAScript that
      live in that range.
    - A JavaScript object used as a dictionary is a [gmap string _] of its own
      properties.  Reading [obj[key]] gives the own property, else the member
      that every plain object inherits from [Object.prototype] under that
      key ([constructor], [toString], ...), else [undefined] ([get]).
    - A credit is a JavaScript number as long as the program adds 0.5 to
      numbers: every such credit is [k * 0.5] for a natural [k], which a
      binary64 number holds exactly as long as [k < 2^53], and is modelled as
      a rational ([Qc]).  A ledger entry can also hold an inherited member or
      the string that adding 0.5 to one gives ([credit]); a PIN entry can
      hold an inherited member ([pin]).
    - Reading [.trim] of a member that is no string throws a [TypeError]; a
      handler that throws has called no [setState] before.
    - The component's functions close over the state of the render that
      created them ([r] below), and change the state only through [setState]
      with an updater function.  A handler is modelled as a function of the
      rendered state that returns the updaters it enqueues, in order; no
      [setState] call at all is the empty list.
    - [prompt], [confirm] and [alert] act on a [console]: the replies of the
      user to the successive dialogs, and the alerts shown so far.  A
      computation on the console returns a value or throws ([outcome]). *)

From Stdlib Require Import Ascii String QArith Qcanon.
From stdpp Require Import base numbers option list strings gmap fin_maps.

Open Scope string_scope.
Open Scope list_scope.

(** ** Strings *)

Module Js.

(** White space and line terminators below code unit 256:
    TAB, LF, VT, FF, CR, SPACE and NO-BREAK SPACE. *)
Definition is_space (c : ascii) : bool :=
  let n := nat_of_ascii c in
  (Nat.leb 9 n && Nat.leb n 13) || Nat.eqb n 32 || Nat.eqb n 160.

(** [/[0-9]/] *)
Definition is_digit (c : ascii) : bool :=
  let n := nat_of_ascii c in Nat.leb 48 n && Nat.leb n 57.

Definition is_empty (s : string) : bool :=
  match s with EmptyString => true | String _ _ => false end.

(** JavaScript truthiness of a string. *)
Definition truthy (s : string) : bool := negb (is_empty s).

Fixpoint trimStart (s : string) : string :=
  match s with
  | EmptyString => EmptyString
  | String c s' => if is_space c then trimStart s' else s
  end.

Fixpoint trimEnd (s : string) : string :=
  match s with
  | EmptyString => EmptyString
  | String c s' =>
      let t := trimEnd s' in
      if is_space c && is_empty t then EmptyString else String c t
  end.

(** [String.prototype.trim] *)
Definition trim (s : string) : string := trimEnd (trimStart s).

(** [s.split(",")]: the pieces between the commas; never the empty array. *)
Fixpoint split_comma (s : string) : list string :=
  match s with
  | EmptyString => [EmptyString]
  | String c s' =>
      if Ascii.eqb c ","%char then EmptyString :: split_comma s'
      else match split_comma s' with
           | h :: t => String c h :: t
           | [] => [String c EmptyString]
           end
  end.

Fixpoint all_digits (s : string) : bool :=
  match s with
  | EmptyString => true
  | String c s' => is_digit c && all_digits s'
  end.

(** [/^[0-9]{4,8}$/.test(s)] (no flags: [^] and [$] are the ends of [s]). *)
Definition pin_regex (s : string) : bool :=
  Nat.leb 4 (String.length s) && Nat.leb (String.length s) 8 && all_digits s.

(** [a || b] on strings, where [None] is [undefined] or [null]. *)
Definition or_else (a : option string) (b : string) : string :=
  match a with
  | Some s => if truthy s then s else b
  | None => b
  end.

(** [Array.prototype.splice(start, deleteCount, ...items)] on an array [l]:
    the removed elements and the array afterwards.  A negative [start] counts
    from the end; both arguments are clamped to the array. *)
Definition splice {A} (l : list A) (start deleteCount : Z) (items : list A)
  : list A * list A :=
  let len := Z.of_nat (length l) in
  let actualStart :=
    if (start <? 0)%Z then Z.max (len + start) 0 else Z.min start len in
  let actualDelete := Z.min (Z.max deleteCount 0) (len - actualStart) in
  let i := Z.to_nat actualStart in
  let d := Z.to_nat actualDelete in
  (take d (drop i l), take i l ++ items ++ drop (i + d) l).

(** The keys under which a plain object finds a member of
    [Object.prototype]. *)
Definition inherited (key : string) : bool :=
  existsb (String.eqb key)
    ["constructor"; "hasOwnProperty"; "isPrototypeOf"; "propertyIsEnumerable";
     "toLocaleString"; "toString"; "valueOf"; "__proto__";
     "__defineGetter__"; "__defineSetter__"; "__lookupGetter__";
     "__lookupSetter__"].

End Js.

(** ** Objects used as dictionaries *)

(** What [obj[key]] finds. *)
Inductive got (V : Type) :=
| Own (v : V)     (* an own property *)
| Inherited       (* the member of [Object.prototype] under that key *)
| Missing.        (* [undefined] *)

Arguments Own {V} v.
Arguments Inherited {V}.
Arguments Missing {V}.

Definition get {V} (o : gmap string V) (key : string) : got V :=
  match o !! key with
  | Some v => Own v
  | None => if Js.inherited key then Inherited else Missing
  end.

(** [obj[key] = v] for a [v] that is a number, a string or a boolean.  The
    key ["__proto__"] reaches the setter of [Object.prototype] unless the
    object has an own property of that name; the setter ignores such a [v]. *)
Definition assign {V} (key : string) (v : V) (o : gmap string V)
  : gmap string V :=
  match o !! key with
  | None => if String.eqb key "__proto__" then o else <[key := v]> o
  | Some _ => <[key := v]> o
  end.

(** A ledger entry. *)
Inductive credit :=
| Num (q : Qc)                  (* a number *)
| Member (key : string)         (* the value of [Object.prototype[key]] *)
| Text (key : string) (k : nat).
    (* the string of [Object.prototype[key]] followed by [k] times "0.5" *)

#[global] Instance credit_eq_dec : EqDecision credit.
Proof. solve_decision. Defined.

(** A PIN entry. *)
Inductive pin :=
| Pin (text : string)           (* a string *)
| PinMember (key : string).     (* the value of [Object.prototype[key]] *)

#[global] Instance pin_eq_dec : EqDecision pin.
Proof. solve_decision. Defined.

(** ** The state document *)

(** [kind: '3pm'|'night'] *)
Inductive load_kind := K3pm | KNight.

(** A history entry
    [{ id, when, kind, runBy, unloadBy, runCredit, unloadCredit }]. *)
Record entry := Entry {
  id : string;
  when : string;
  kind : load_kind;
  runBy : string;
  unloadBy : string;
  runCredit : Qc;
  unloadCredit : Qc;
}.

(** The component state
    [{ roommates, queue, paused, credits, history, pins }]. *)
Record state := State {
  roommates : list string;
  queue : list string;                (* rotation by load *)
  paused : gmap string bool;          (* { name: true } *)
  credits : gmap string credit;       (* { name: number } *)
  history : list entry;
  pins : gmap string pin;             (* { name: "1234" } *)
}.

Definition defaultState : state :=
  {| roommates := ["A"; "B"; "C"; "D"];
     queue := ["A"; "B"; "C"; "D"];
     paused := ∅;
     credits := ∅;
     history := [];
     pins := ∅ |}.

(** [0.5] *)
Definition half : Qc := Q2Qc 0.5.

(** [v + 0.5]: a sum of numbers, or the string of [v] followed by "0.5". *)
Definition addHalf (v : credit) : credit :=
  match v with
  | Num q => Num (q + half)%Qc
  | Member key => Text key 1
  | Text key k => Text key (S k)
  end.

(** [c[n] ?? 0] *)
Definition readCredit (c : gmap string credit) (n : string) : credit :=
  match get c n with
  | Own v => v
  | Inherited => Member n
  | Missing => Num 0%Qc
  end.

(** [p[n] ?? ""] *)
Definition readPin (p : gmap string pin) (n : string) : pin :=
  match get p n with
  | Own v => v
  | Inherited => PinMember n
  | Missing => Pin ""
  end.

(** An updater function handed to [setState]. *)
Definition updater : Type := state -> state.

(** The state after React has run the enqueued updaters in order. *)
Definition commit (us : list updater) (s : state) : state :=
  fold_left (fun acc u => u acc) us s.

(** ** Dialogs *)

Inductive reply := Cancel | Ok (text : string).

Inductive alert_message :=
| PinMustBeDigits      (* "PIN must be 4–8 digits." *)
| IncorrectPin         (* "Incorrect PIN." *)
| SetRoommatesFirst.   (* "Please set roommates first." *)

Record console := Console {
  replies : nat -> reply;        (* the user's reply to the n-th dialog *)
  asked : nat;                   (* prompts and confirms answered so far *)
  alerts : list alert_message;   (* alerts shown so far, oldest first *)
}.

Inductive js_error := TypeError.

(** A call returns a value or throws. *)
Inductive outcome (A : Type) :=
| Returned (a : A)
| Threw (e : js_error).

Arguments Returned {A} a.
Arguments Threw {A} e.

Definition ui (A : Type) : Type := console -> outcome A * console.

Definition ret {A} (a : A) : ui A := fun c => (Returned a, c).

Definition throw {A} (e : js_error) : ui A := fun c => (Threw e, c).

Definition bind {A B} (m : ui A) (k : A -> ui B) : ui B :=
  fun c =>
    match m c with
    | (Returned a, c') => k a c'
    | (Threw e, c') => (Threw e, c')
    end.

Notation "'let*' x ':=' m 'in' k" := (bind m (fun x => k))
  (at level 10, x name, m at level 100, k at level 200).

(** What the next [prompt] gives: the typed text, or [None] ([null]) on
    Cancel. *)
Definition replyText (c : console) : option string :=
  match replies c (asked c) with Cancel => None | Ok text => Some text end.

(** [prompt(message)] *)
Definition prompt : ui (option string) :=
  fun c =>
    (Returned (replyText c),
     {| replies := replies c; asked := S (asked c); alerts := alerts c |}).

(** [confirm(message)] *)
Definition confirm : ui bool :=
  fun c =>
    (Returned
       match replies c (asked c) with Cancel => false | Ok _ => true end,
     {| replies := replies c; asked := S (asked c); alerts := alerts c |}).

(** [alert(message)] *)
Definition alert (m : alert_message) : ui unit :=
  fun c =>
    (Returned tt,
     {| replies := replies c; asked := asked c; alerts := alerts c ++ [m] |}).

(** ** The component *)

(** Truthiness of [paused[n]]. *)
Definition is_paused (p : gmap string bool) (n : string) : bool :=
  match get p n with
  | Own b => b
  | Inherited => true
  | Missing => false
  end.

(** [queue.filter((n) => !paused[n])] *)
Definition activeQueue (r : state) : list string :=
  List.filter (fun n => negb (is_paused (paused r) n)) (queue r).

(** [state.queue.filter((n) => paused[n])] *)
Definition pausedList (r : state) : list string :=
  List.filter (fun n => is_paused (paused r) n) (queue r).

(** The queue is its active names followed by its paused names. *)
Definition partitioned (s : state) : Prop :=
  queue s = activeQueue s ++ pausedList s.

(** [activeQueue[0] || null] *)
Definition current (r : state) : option string :=
  match activeQueue r with
  | n :: _ => if Js.truthy n then Some n else None
  | [] => None
  end.

(** [activeQueue[1] || null] *)
Definition next (r : state) : option string :=
  match activeQueue r with
  | _ :: n :: _ => if Js.truthy n then Some n else None
  | _ => None
  end.

(** The effect "ensure credits & pins exist for all roommates", which runs
    after the first render and after each render that changed [roommates]. *)
Definition ensureEntries (r : state) : list updater :=
  let '(updatedCredits, updatedPins) :=
    fold_left
      (fun '(uc, up) n =>
         ((if get uc n is Missing then <[n := Num 0%Qc]> uc else uc),
          (if get up n is Missing then <[n := Pin ""]> up else up)))
      (roommates r) (credits r, pins r) in
  if decide (updatedCredits <> credits r \/ updatedPins <> pins r)
  then [fun s =>
          {| roommates := roommates s; queue := queue s; paused := paused s;
             credits := updatedCredits; history := history s;
             pins := updatedPins |}]
  else [].

(** [value.split(",").map((s) => s.trim()).filter(Boolean)] *)
Definition parseNames (value : string) : list string :=
  List.filter Js.truthy (map Js.trim (Js.split_comma value)).

Definition setRoommatesFromInput (value : string) (r : state) : list updater :=
  let list := parseNames value in
  if decide (list = []) then []
  else
    [fun s =>
       {| roommates := list;
          queue := List.filter (fun n => negb (is_paused (paused s) n)) list;
          paused := paused s;
          credits :=
            fold_left (fun acc n => <[n := readCredit (credits s) n]> acc)
                      list ∅;
          history := history s;
          pins :=
            fold_left (fun acc n => <[n := readPin (pins s) n]> acc)
                      list ∅ |}].

(** [{ ...s, queue: q }] *)
Definition with_queue (q : list string) : updater :=
  fun s =>
    {| roommates := roommates s; queue := q; paused := paused s;
       credits := credits s; history := history s; pins := pins s |}.

(** What [reorderQueue] does: it returns before [setState], or it sets the
    queue.  [moved] is [undefined] when the first [splice] removed nothing;
    the queue it sets then holds [undefined], written [None]. *)
Inductive requeue :=
| Unchanged
| Requeued (q : list string)
| RequeuedWithUndefined (q : list (option string)).

Definition reorderQueue (fromIdx toIdx : Z) (r : state) : requeue :=
  if decide (fromIdx = toIdx) then Unchanged
  else
    let active := Some <$> activeQueue r in
    let '(removed, active1) := Js.splice active fromIdx 1 [] in
    let moved := default None (head removed) in
    let '(_, active2) := Js.splice active1 toIdx 0 [moved] in
    let full := active2 ++ (Some <$> pausedList r) in
    match mapM (fun x => x) full with
    | Some q => Requeued q
    | None => RequeuedWithUndefined full
    end.

Definition advanceQueue (r : state) : list updater :=
  match activeQueue r with
  | [] => []
  | a0 :: rest =>
      let rotated := rest ++ [a0] in
      let full := rotated ++ pausedList r in
      [with_queue full]
  end.

Definition togglePause (name : string) (r : state) : list updater :=
  [fun s =>
     let p := <[name := negb (is_paused (paused s) name)]> (paused s) in
     let active := List.filter (fun n => negb (is_paused p n)) (queue s) in
     let pausedList := List.filter (fun n => is_paused p n) (queue s) in
     {| roommates := roommates s; queue := active ++ pausedList; paused := p;
        credits := credits s; history := history s; pins := pins s |}].

Definition setPin (name pinRaw : string) (r : state) : ui (list updater) :=
  let pin := Js.trim pinRaw in
  if Js.truthy pin && negb (Js.pin_regex pin) then
    let* _ := alert PinMustBeDigits in
    ret []
  else
    ret [fun s =>
           {| roommates := roommates s; queue := queue s; paused := paused s;
              credits := credits s; history := history s;
              pins := <[name := Pin pin]> (pins s) |}].

(** [pins[name] || ""] where it is a string: the PIN on record for [name].
    Where it is a member of [Object.prototype], reading its [.trim] gives
    [undefined] and the call throws. *)
Definition storedPin (r : state) (name : string) : outcome string :=
  match get (pins r) name with
  | Own (Pin text) => Returned text
  | Own (PinMember _) => Threw TypeError
  | Inherited => Threw TypeError
  | Missing => Returned ""
  end.

Definition requirePinFor (name : string) (r : state) : ui bool :=
  match storedPin r name with
  | Threw e => throw e
  | Returned stored =>
      let expected := Js.trim stored in
      if negb (Js.truthy expected) then ret true   (* no PIN set: allow *)
      else
        let* answer := prompt in
        let entered := Js.trim <$> answer in
        if decide (entered = Some expected) then ret true
        else
          let* _ := alert IncorrectPin in
          ret false
  end.

(** [id] and [when] are what [Math.random().toString(36).slice(2)] and
    [new Date().toISOString()] give when the updater runs. *)
Definition addCredits (id when : string) (runBy unloadBy : string)
    (kind : load_kind) (r : state) : list updater :=
  [fun s =>
     let c := credits s in
     let c :=
       if Js.truthy runBy
       then assign runBy (addHalf (readCredit c runBy)) c else c in
     let c :=
       if Js.truthy unloadBy
       then assign unloadBy (addHalf (readCredit c unloadBy)) c else c in
     let entry :=
       {| id := id; when := when; kind := kind; runBy := runBy;
          unloadBy := unloadBy; runCredit := half; unloadCredit := half |} in
     {| roommates := roommates s; queue := queue s; paused := paused s;
        credits := c; history := take 200 (entry :: history s);
        pins := pins s |}].

Definition completeLoad (id when : string) (kind : load_kind)
    (runBy unloadBy : string) (advance : bool) (r : state) : list updater :=
  addCredits id when runBy unloadBy kind r
  ++ (if advance then advanceQueue r else []).

(** [current ?? roommates[0] ?? ""] *)
Definition defaultName (r : state) : string :=
  match current r with
  | Some n => n
  | None => default "" (head (roommates r))
  end.

Definition handleComplete (id when : string) (kind : load_kind) (r : state)
  : ui (list updater) :=
  let defaultName := defaultName r in
  let* answer := prompt in
  let runBy := Js.or_else (Js.trim <$> answer) defaultName in
  if negb (Js.truthy runBy) then
    let* _ := alert SetRoommatesFirst in ret []
  else
    let* allowed := requirePinFor runBy r in
    if negb allowed then ret []   (* PIN check for runner *)
    else
      let* answer := prompt in
      let unloadBy := Js.or_else (Js.trim <$> answer) runBy in
      if negb (Js.truthy unloadBy) then
        let* _ := alert SetRoommatesFirst in ret []
      else
        let* allowed := requirePinFor unloadBy r in
        if negb allowed then ret []   (* PIN check for unloader *)
        else ret (completeLoad id when kind runBy unloadBy true r).

(** [action: 'run' | 'unload'] *)
Inductive claim_action := Run | Unload.

Definition quickClaim (id when : string) (kind : load_kind) (name : string)
    (action : claim_action) (r : state) : ui (list updater) :=
  let* allowed := requirePinFor name r in
  if negb allowed then ret []
  else
    match action with
    | Run => ret (completeLoad id when kind name name true r)
    | Unload =>
        let runner := default name (current r) in
        ret (completeLoad id when kind runner name true r)
    end.

Definition resetCredits (r : state) : ui (list updater) :=
  let* yes := confirm in
  if negb yes then ret []
  else
    ret [fun s =>
           {| roommates := roommates s; queue := queue s; paused := paused s;
              credits := (fun _ => Num 0%Qc) <$> credits s;
              history := history s;
              pins := pins s |}].

(** ** The running application *)

(** The state once the effect has run on it. *)
Definition settle (s : state) : state := commit (ensureEntries s) s.

(** The state shown after the first render of a fresh installation. *)
Definition mounted : state := settle defaultState.

(** [setRoster(names)]: the names field loses focus with [value] in it; a
    call of [setState] changes [roommates], so the effect runs. *)
Definition setRoster (value : string) (r : state) : state :=
  match setRoommatesFromInput value r with
  | [] => r
  | us => settle (commit us r)
  end.

(** One user action on the page.  The buttons of a name exist only where the
    page renders them: pause and the arrows on the active queue (the arrows
    clamp their target), PIN fields and quick claims on the roommates.  A
    handler that throws changes nothing and is no step.  The relation does
    not ask that the page could render [r]: it also takes steps from a state
    on which React has unmounted the page, so what holds of every reachable
    state holds of every state of a running page. *)
Inductive step : state -> state -> Prop :=
| step_names r value :
    step r (setRoster value r)
| step_pause r name :
    In name (activeQueue r) ->
    step r (commit (togglePause name r) r)
| step_up r idx q :
    (idx < length (activeQueue r))%nat ->
    reorderQueue (Z.of_nat idx) (Z.max 0 (Z.of_nat idx - 1)) r = Requeued q ->
    step r (with_queue q r)
| step_down r idx q :
    (idx < length (activeQueue r))%nat ->
    reorderQueue (Z.of_nat idx)
      (Z.min (Z.of_nat (length (activeQueue r)) - 1) (Z.of_nat idx + 1)) r
    = Requeued q ->
    step r (with_queue q r)
| step_pin r n value c us c' :
    In n (roommates r) ->
    setPin n value r c = (Returned us, c') ->
    step r (commit us r)
| step_record r id when kind c us c' :
    handleComplete id when kind r c = (Returned us, c') ->
    step r (commit us r)
| step_quick r id when kind name action c us c' :
    In name (roommates r) ->
    quickClaim id when kind name action r c = (Returned us, c') ->
    step r (commit us r)
| step_reset r c us c' :
    resetCredits r c = (Returned us, c') ->
    step r (commit us r).

(** The states a fresh installation can reach. *)
Definition reachable (s : state) : Prop := rtc step mounted s.

(** The data model's constraints on a state document. *)
Record well_formed (s : state) : Prop := WellFormed {
  wf_history : (length (history s) <= 200)%nat;
  wf_names : forall n, In n (roommates s) -> n <> "";
  wf_pins_roster : forall n, is_Some (pins s !! n) -> In n (roommates s);
  wf_pins_format :
    forall n text,
      pins s !! n = Some (Pin text) -> text = "" \/ Js.pin_regex text = true;
  wf_partitioned : partitioned s;
}.

(** [advance()] and [togglePause(x)] on the current render. *)
Definition advance (s : state) : state := commit (advanceQueue s) s.

Definition toggle (x : string) (s : state) : state := commit (togglePause x s) s.

(** A sequence rotated left by one: the head moves to the tail. *)
Definition rotate_left1 {A} (l : list A) : list A :=
  match l with
  | [] => []
  | a :: rest => rest ++ [a]
  end.

(** [recordCompletion(kind, a, b)] on the current render. *)
Definition recordCompletion (id when : string) (kind : load_kind)
    (a b : string) (s : state) : state :=
  commit (addCredits id when a b kind s) s.

(** The history entry [addCredits] builds. *)
Definition entry_of (id when : string) (kind : load_kind) (a b : string)
  : entry :=
  {| id := id; when := when; kind := kind; runBy := a; unloadBy := b;
     runCredit := half; unloadCredit := half |}.

(** A completed load: [(id, when, kind, ranBy, unloadedBy)]. *)
Definition completion : Type := string * string * load_kind * string * string.

Definition entry_for (c : completion) : entry :=
  let '(i, w, k, a, b) := c in entry_of i w k a b.

(** Loads recorded one after the other, the first of the list first. *)
Definition recordAll (cs : list completion) (s : state) : state :=
  fold_left (fun acc c => let '(i, w, k, a, b) := c in
                          recordCompletion i w k a b acc) cs s.

(** The name a dialog "Who ran it?" / "Who unloaded it?" resolves to:
    [prompt(...)?.trim() || fallback]. *)
Definition claimed (c : console) (fallback : string) : string :=
  Js.or_else (Js.trim <$> replyText c) fallback.

(** A console whose user answers the dialogs with [answers], then cancels. *)
Definition scripted (answers : list reply) : console :=
  {| replies := fun n => nth n answers Cancel; asked := 0; alerts := [] |}.

(** A handler run on the current render, and the state after React has
    applied what it enqueued; a handler that throws has enqueued nothing. *)
Definition dispatch (h : state -> ui (list updater)) (r : state)
  : console -> state * console :=
  fun c =>
    match h r c with
    | (Returned us, c') => (commit us r, c')
    | (Threw _, c') => (r, c')
    end.

(** The console after one more dialog and, possibly, one more alert. *)
Definition answered (c : console) : console :=
  {| replies := replies c; asked := S (asked c); alerts := alerts c |}.

Definition alerted (m : alert_message) (c : console) : console :=
  {| replies := replies c; asked := asked c; alerts := alerts c ++ [m] |}.

(** ** Sample states *)

(** The mounted state after "A" has set the PIN 1234. *)
Definition stateA1234 : state :=
  fst (dispatch (setPin "A" "1234") mounted (scripted [])).

(** 201 loads run by "A" and unloaded by "B", told apart by their ids. *)
Definition loads201 : list completion :=
  map (fun n => (String (ascii_of_nat n) "", "t", K3pm, "A", "B")) (seq 0 201).

(** ** The names field *)

(** [roommates.join(", ")], the initial content of the names field. *)
Fixpoint joinNames (l : list string) : string :=
  match l with
  | [] => ""
  | n :: rest =>
      match rest with
      | [] => n
      | _ :: _ => n ++ ", " ++ joinNames rest
      end
  end.

(** The string holds no comma. *)
Fixpoint no_comma (s : string) : bool :=
  match s with
  | EmptyString => true
  | String c s' => negb (Ascii.eqb c ","%char) && no_comma s'
  end.

(** The string holds white space and commas only. *)
Fixpoint blank (s : string) : bool :=
  match s with
  | EmptyString => true
  | String c s' => (Js.is_space c || Ascii.eqb c ","%char) && blank s'
  end.

(** A name as the names field yields it: not empty, trimmed, no comma. *)
Definition clean_name (n : string) : Prop :=
  n <> "" /\ Js.trim n = n /\ no_comma n = true.

(** ** Measures of the ledger *)

(** [0.5] added [k] times to 0. *)
Definition halves (k : nat) : Qc := Nat.iter k (fun q => (q + half)%Qc) 0%Qc.

(** What a credit counts for in a sum of numbers: a value that is no
    number counts for nothing. *)
Definition numeric (v : credit) : Qc :=
  match v with Num q => q | _ => 0%Qc end.

(** The sum of the credits that are numbers. *)
Definition totalCredits (c : gmap string credit) : Qc :=
  map_fold (fun _ v acc => (numeric v + acc)%Qc) 0%Qc c.

(** ** Rendering *)






(** ** The rotation across actions *)

(** Apart from a roster change, an action keeps the roster, permutes the
    queue and pauses at most an active name. *)
Definition keeps_rotation (r r' : state) : Prop :=
  roommates r' = roommates r /\
  Permutation (queue r') (queue r) /\
  (forall n, is_paused (paused r) n = true -> is_paused (paused r') n = true) /\
  (forall n, is_paused (paused r') n = true ->
     is_paused (paused r) n = true \/ In n (activeQueue r)).

(** The queue holds roommates only, and every roommate that is not paused. *)
Definition rotation_covers (s : state) : Prop :=
  (forall n, In n (queue s) -> In n (roommates s)) /\
  (forall n, In n (roommates s) -> is_paused (paused s) n = false ->
     In n (queue s)).

(** ** The ledger across actions *)

(** What the ledger holds under a key: 0.5 added some number of times to 0,
    or, under a key that finds a member of [Object.prototype], that member
    or a string made from it. *)
Definition sound (n : string) (v : credit) : Prop :=
  (exists k, v = Num (halves k)) \/
  (Js.inherited n = true /\ forall q, v <> Num q).

(** Every roommate reads a ledger entry and a PIN entry, own or inherited,
    and every own ledger entry is sound. *)
Definition ledger_ok (s : state) : Prop :=
  (forall n, In n (roommates s) ->
     get (credits s) n <> Missing /\ get (pins s) n <> Missing) /\
  (forall n v, credits s !! n = Some v -> sound n v).

(** * Properties *)

Example trim_example : Js.trim "  12 34	 " = "12 34".
Proof. reflexivity. Qed.

Example split_example : Js.split_comma "A, B,,C," = ["A"; " B"; ""; "C"; ""].
Proof. reflexivity. Qed.

Example splice_example :
  Js.splice [1; 2; 3; 4] (-1) 1 [] = ([4], [1; 2; 3]) /\
  Js.splice [1; 2; 3] 7 0 [9] = ([], [1; 2; 3; 9]) /\
  Js.splice [1; 2; 3] 5 1 [] = ([], [1; 2; 3]).
Proof. repeat split. Qed.

(** ** Strings *)

Section Strings.

Lemma truthy_nonempty s : Js.truthy s = true <-> s <> "".
Proof. destruct s; cbv; intuition congruence. Qed.

Lemma truthy_false s : Js.truthy s = false <-> s = "".
Proof. destruct s; cbv; intuition congruence. Qed.

Lemma digit_not_space c : Js.is_digit c = true -> Js.is_space c = false.
Proof.
  unfold Js.is_digit, Js.is_space.
  generalize (nat_of_ascii c); intros n Hd.
  apply andb_true_iff in Hd as [H1 H2].
  apply Nat.leb_le in H1, H2.
  destruct (Nat.leb_spec 9 n), (Nat.leb_spec n 13),
    (Nat.eqb_spec n 32), (Nat.eqb_spec n 160); simpl; try reflexivity; lia.
Qed.

Lemma trimEnd_digits s : Js.all_digits s = true -> Js.trimEnd s = s.
Proof.
  induction s as [|ch s IH]; simpl; [reflexivity|].
  intros [Hc Hs]%andb_true_iff.
  rewrite (digit_not_space _ Hc), (IH Hs). reflexivity.
Qed.

Lemma trimStart_digits s : Js.all_digits s = true -> Js.trimStart s = s.
Proof.
  destruct s as [|ch s]; simpl; [reflexivity|].
  intros [Hc _]%andb_true_iff. now rewrite (digit_not_space _ Hc).
Qed.

(** A string the PIN pattern accepts has no white space to trim. *)
Lemma trim_pin s : Js.pin_regex s = true -> Js.trim s = s.
Proof.
  unfold Js.pin_regex, Js.trim.
  intros [_ Hd]%andb_true_iff.
  now rewrite (trimStart_digits _ Hd), trimEnd_digits.
Qed.

Lemma pin_nonempty s : Js.pin_regex s = true -> s <> "".
Proof. intros H ->. discriminate H. Qed.

Lemma or_else_default o : Js.or_else o "" = default "" o.
Proof. destruct o as [[|]|]; reflexivity. Qed.

End Strings.

(** ** Objects used as dictionaries *)

Section Objects.

Context {V : Type}.

Lemma get_own (o : gmap string V) n v : o !! n = Some v -> get o n = Own v.
Proof. unfold get. now intros ->. Qed.

Lemma get_missing (o : gmap string V) n :
  o !! n = None -> Js.inherited n = false -> get o n = Missing.
Proof. unfold get. now intros -> ->. Qed.

Lemma get_inherited (o : gmap string V) n :
  o !! n = None -> Js.inherited n = true -> get o n = Inherited.
Proof. unfold get. now intros -> ->. Qed.

Lemma get_Missing_iff (o : gmap string V) n :
  get o n = Missing <-> o !! n = None /\ Js.inherited n = false.
Proof.
  unfold get. destruct (o !! n), (Js.inherited n); intuition congruence.
Qed.

Lemma get_insert_eq (o : gmap string V) n v : get (<[n := v]> o) n = Own v.
Proof. apply get_own, lookup_insert_eq. Qed.

Lemma get_insert_ne (o : gmap string V) m n v :
  m <> n -> get (<[m := v]> o) n = get o n.
Proof. intros Hne. unfold get. now rewrite lookup_insert_ne. Qed.

Lemma lookup_assign_ne (o : gmap string V) m n v :
  m <> n -> assign m v o !! n = o !! n.
Proof.
  intros Hne. unfold assign.
  destruct (o !! m); [now apply lookup_insert_ne|].
  destruct (String.eqb m "__proto__"); [reflexivity|].
  now apply lookup_insert_ne.
Qed.

Lemma get_assign_ne (o : gmap string V) m n v :
  m <> n -> get (assign m v o) n = get o n.
Proof. intros Hne. unfold get. now rewrite lookup_assign_ne. Qed.

(** Assigning under a key that is own, or that is no inherited key, makes
    an own property. *)
Lemma assign_insert (o : gmap string V) n v :
  is_Some (o !! n) \/ Js.inherited n = false -> assign n v o = <[n := v]> o.
Proof.
  unfold assign. intros [[x ->]|Hn]; [reflexivity|].
  destruct (o !! n); [reflexivity|].
  destruct (String.eqb_spec n "__proto__") as [->|]; [discriminate|reflexivity].
Qed.



End Objects.

Section Reads.

Lemma readCredit_own c n v : c !! n = Some v -> readCredit c n = v.
Proof. intros H. unfold readCredit. now rewrite (get_own _ _ _ H). Qed.

Lemma readCredit_missing c n :
  c !! n = None -> Js.inherited n = false -> readCredit c n = Num 0%Qc.
Proof. intros H Hn. unfold readCredit. now rewrite get_missing. Qed.


(** A key that reads as a number is own or is no inherited key. *)
Lemma readCredit_num c n q :
  readCredit c n = Num q -> is_Some (c !! n) \/ Js.inherited n = false.
Proof.
  unfold readCredit, get. destruct (c !! n); [eauto|].
  destruct (Js.inherited n); [discriminate|auto].
Qed.

Lemma readCredit_ext c c' n : c !! n = c' !! n -> readCredit c n = readCredit c' n.
Proof. intros H. unfold readCredit, get. now rewrite H. Qed.

Lemma readCredit_insert_ne c m n v :
  m <> n -> readCredit (<[m := v]> c) n = readCredit c n.
Proof. intros Hne. unfold readCredit. now rewrite get_insert_ne. Qed.

Lemma readCredit_assign_ne c m n v :
  m <> n -> readCredit (assign m v c) n = readCredit c n.
Proof. intros Hne. unfold readCredit. now rewrite get_assign_ne. Qed.

Lemma readPin_own p n v : p !! n = Some v -> readPin p n = v.
Proof. intros H. unfold readPin. now rewrite (get_own _ _ _ H). Qed.



Lemma is_paused_own p n b : p !! n = Some b -> is_paused p n = b.
Proof. intros H. unfold is_paused. now rewrite (get_own _ _ _ H). Qed.

Lemma is_paused_absent p n : p !! n = None -> is_paused p n = Js.inherited n.
Proof.
  intros H. unfold is_paused, get. rewrite H. now destruct (Js.inherited n).
Qed.

End Reads.

(** ** The PIN gate *)

Section PinGate.

Variables (name : string) (r : state).

Lemma storedPin_own text :
  pins r !! name = Some (Pin text) -> storedPin r name = Returned text.
Proof. intros H. unfold storedPin. now rewrite (get_own _ _ _ H). Qed.

Lemma storedPin_missing :
  pins r !! name = None -> Js.inherited name = false ->
  storedPin r name = Returned "".
Proof. intros H Hn. unfold storedPin. now rewrite get_missing. Qed.

Lemma storedPin_inherited :
  pins r !! name = None -> Js.inherited name = true ->
  storedPin r name = Threw TypeError.
Proof. intros H Hn. unfold storedPin. now rewrite get_inherited. Qed.

Lemma storedPin_member key :
  pins r !! name = Some (PinMember key) -> storedPin r name = Threw TypeError.
Proof. intros H. unfold storedPin. now rewrite (get_own _ _ _ H). Qed.

Lemma requirePinFor_throws c e :
  storedPin r name = Threw e -> requirePinFor name r c = (Threw e, c).
Proof. unfold requirePinFor. now intros ->. Qed.

Lemma requirePinFor_no_pin c :
  storedPin r name = Returned "" -> requirePinFor name r c = (Returned true, c).
Proof. unfold requirePinFor. now intros ->. Qed.

Lemma requirePinFor_entered c stored s :
  storedPin r name = Returned stored ->
  stored <> "" ->
  Js.trim stored = stored ->
  replies c (asked c) = Ok s ->
  requirePinFor name r c =
    if decide (Js.trim s = stored)
    then (Returned true, answered c)
    else (Returned false, alerted IncorrectPin (answered c)).
Proof.
  intros Hstored Hne Htrim Hreply.
  unfold requirePinFor. rewrite Hstored, Htrim.
  apply truthy_nonempty in Hne. rewrite Hne. simpl.
  unfold bind, prompt, replyText. rewrite Hreply. simpl.
  destruct (decide (Some (Js.trim s) = Some stored)) as [He|He];
    destruct (decide (Js.trim s = stored)) as [He'|He'];
    try reflexivity; congruence.
Qed.

Lemma requirePinFor_cancelled c stored :
  storedPin r name = Returned stored ->
  Js.trim stored <> "" ->
  replies c (asked c) = Cancel ->
  requirePinFor name r c = (Returned false, alerted IncorrectPin (answered c)).
Proof.
  intros Hstored Hne Hreply.
  unfold requirePinFor. rewrite Hstored.
  apply truthy_nonempty in Hne. rewrite Hne. simpl.
  unfold bind, prompt, replyText. rewrite Hreply. reflexivity.
Qed.

(** The gate whatever the stored PIN and the reply are. *)
Lemma requirePinFor_open c stored :
  storedPin r name = Returned stored -> Js.trim stored = "" ->
  requirePinFor name r c = (Returned true, c).
Proof. unfold requirePinFor. now intros -> ->. Qed.

Lemma requirePinFor_asked c stored :
  storedPin r name = Returned stored -> Js.trim stored <> "" ->
  requirePinFor name r c =
    if decide (Js.trim <$> replyText c = Some (Js.trim stored))
    then (Returned true, answered c)
    else (Returned false, alerted IncorrectPin (answered c)).
Proof.
  intros Hstored Hne%truthy_nonempty. unfold requirePinFor.
  rewrite Hstored, Hne. simpl. unfold bind, prompt. fold (answered c).
  now destruct (decide _).
Qed.

(** The gate compares with the trimmed stored PIN: in a document edited by
    hand to hold " 1234" for "A", the entry "1234" passes. *)
Example untrimmed_pin_example :
  let doc :=
    {| roommates := ["A"]; queue := ["A"]; paused := ∅; credits := ∅;
       history := []; pins := {[ "A" := Pin " 1234" ]} |} in
  fst (requirePinFor "A" doc (scripted [Ok "1234"])) = Returned true.
Proof. reflexivity. Qed.

End PinGate.

Section SetPin.

Variables (name candidate : string) (r : state) (c : console).

Lemma setPin_rejects :
  Js.trim candidate <> "" ->
  Js.pin_regex (Js.trim candidate) = false ->
  setPin name candidate r c = (Returned [], alerted PinMustBeDigits c).
Proof.
  intros Hne%truthy_nonempty Hre. unfold setPin. rewrite Hne, Hre. reflexivity.
Qed.

Lemma setPin_stores :
  Js.trim candidate = "" \/ Js.pin_regex (Js.trim candidate) = true ->
  setPin name candidate r c =
    (Returned
       [fun s =>
          {| roommates := roommates s; queue := queue s; paused := paused s;
             credits := credits s; history := history s;
             pins := <[name := Pin (Js.trim candidate)]> (pins s) |}], c).
Proof.
  intros H. unfold setPin.
  destruct H as [->| ->]; [reflexivity|].
  rewrite andb_false_r. reflexivity.
Qed.

End SetPin.

(** ** The credit ledger *)

Section Ledger.

Variables (i w : string) (k : load_kind).

Lemma half_half : (half + half = 1)%Qc.
Proof. apply Qc_is_canon. reflexivity. Qed.

Lemma recordCompletion_eq a b s :
  a <> "" -> b <> "" ->
  recordCompletion i w k a b s =
    let c1 := assign a (addHalf (readCredit (credits s) a)) (credits s) in
    {| roommates := roommates s; queue := queue s; paused := paused s;
       credits := assign b (addHalf (readCredit c1 b)) c1;
       history := take 200 (entry_of i w k a b :: history s);
       pins := pins s |}.
Proof.
  intros Ha%truthy_nonempty Hb%truthy_nonempty.
  unfold recordCompletion, addCredits, commit. simpl. now rewrite Ha, Hb.
Qed.

Lemma recordCompletion_run a b s q :
  a <> "" -> b <> "" -> a <> b ->
  readCredit (credits s) a = Num q ->
  credits (recordCompletion i w k a b s) !! a = Some (Num (q + half)%Qc).
Proof.
  intros Ha Hb Hab Hq. rewrite recordCompletion_eq by assumption. simpl.
  rewrite lookup_assign_ne by congruence.
  rewrite assign_insert by (now apply (readCredit_num _ _ q)).
  now rewrite lookup_insert_eq, Hq.
Qed.

Lemma recordCompletion_unload a b s q :
  a <> "" -> b <> "" -> a <> b ->
  readCredit (credits s) b = Num q ->
  credits (recordCompletion i w k a b s) !! b = Some (Num (q + half)%Qc).
Proof.
  intros Ha Hb Hab Hq. rewrite recordCompletion_eq by assumption. simpl.
  rewrite readCredit_assign_ne by assumption. rewrite Hq.
  rewrite assign_insert; [apply lookup_insert_eq|].
  destruct (readCredit_num _ _ _ Hq) as [Hsome|Hn]; [left|now right].
  now rewrite lookup_assign_ne.
Qed.

Lemma recordCompletion_both a s q :
  a <> "" ->
  readCredit (credits s) a = Num q ->
  credits (recordCompletion i w k a a s) !! a = Some (Num (q + 1)%Qc).
Proof.
  intros Ha Hq. rewrite recordCompletion_eq by assumption. simpl.
  rewrite (assign_insert (credits s)) by (now apply (readCredit_num _ _ q)).
  rewrite Hq. cbn [addHalf].
  rewrite (readCredit_own _ a (Num (q + half)%Qc)) by apply lookup_insert_eq.
  rewrite assign_insert by (left; rewrite lookup_insert_eq; eauto).
  rewrite lookup_insert_eq. cbn [addHalf]. do 2 f_equal.
  rewrite <- half_half. ring.
Qed.

Lemma recordCompletion_others a b s n :
  n <> a -> n <> b ->
  credits (recordCompletion i w k a b s) !! n = credits s !! n.
Proof.
  intros Hna Hnb. unfold recordCompletion, addCredits, commit. simpl.
  destruct (Js.truthy a), (Js.truthy b);
    now rewrite ?lookup_assign_ne by congruence.
Qed.

(** The guards [if (runBy)] and [if (unloadBy)]: an empty name gets no
    ledger entry. *)
Lemma recordCompletion_empty_name b s :
  b <> "" -> credits (recordCompletion i w k "" b s) !! "" = credits s !! "".
Proof.
  intros Hb. unfold recordCompletion, addCredits, commit. simpl.
  destruct (Js.truthy b); [|reflexivity].
  now rewrite lookup_assign_ne by congruence.
Qed.



Lemma recordCompletion_history a b s :
  history (recordCompletion i w k a b s)
  = take 200 (entry_of i w k a b :: history s).
Proof. reflexivity. Qed.

End Ledger.

Section History.

Lemma take_app_take {A} (n : nat) (l m : list A) :
  take n (l ++ take n m) = take n (l ++ m).
Proof.
  rewrite !take_app, take_take. do 2 f_equal. lia.
Qed.

Lemma recordAll_cons c cs s :
  recordAll (c :: cs) s =
  recordAll cs (let '(i, w, k, a, b) := c in recordCompletion i w k a b s).
Proof. reflexivity. Qed.

(** After at least one load the log is the newest 200 of all entries. *)
Lemma recordAll_history c cs s :
  history (recordAll (c :: cs) s)
  = take 200 (rev (map entry_for (c :: cs)) ++ history s).
Proof.
  revert c s. induction cs as [|c' cs IH]; intros [[[[i w] k] a] b] s.
  - reflexivity.
  - rewrite recordAll_cons, IH, recordCompletion_history.
    rewrite take_app_take.
    change (map entry_for ((i, w, k, a, b) :: c' :: cs))
      with (entry_of i w k a b :: map entry_for (c' :: cs)).
    cbn [rev]. now rewrite <- app_assoc.
Qed.

Lemma recordCompletion_length i w k a b s :
  (length (history (recordCompletion i w k a b s)) <= 200)%nat.
Proof. rewrite recordCompletion_history, length_take. lia. Qed.

End History.

(** ** What the handlers enqueue *)

Section Handlers.

Lemma commit_app us vs s : commit (us ++ vs) s = commit vs (commit us s).
Proof. apply fold_left_app. Qed.

Lemma advanceQueue_cases r :
  advanceQueue r = [] /\ activeQueue r = [] \/
  exists a0 rest, activeQueue r = a0 :: rest /\
    advanceQueue r = [with_queue ((rest ++ [a0]) ++ pausedList r)].
Proof.
  unfold advanceQueue. destruct (activeQueue r) as [|a0 rest]; eauto.
Qed.

(** Apart from the queue, a completed load changes what [addCredits]
    changes. *)
Lemma completeLoad_commit i w k a b r :
  commit (completeLoad i w k a b true r) r
  = with_queue (queue (advance r)) (recordCompletion i w k a b r).
Proof.
  unfold completeLoad. rewrite commit_app.
  fold (recordCompletion i w k a b r). unfold advance.
  destruct (advanceQueue_cases r) as [[-> _]|(a0 & rest & _ & ->)];
    reflexivity.
Qed.

Lemma requirePinFor_console name r c :
  requirePinFor name r c = (Threw TypeError, c) \/
  requirePinFor name r c = (Returned true, c) \/
  requirePinFor name r c = (Returned true, answered c) \/
  requirePinFor name r c = (Returned false, alerted IncorrectPin (answered c)).
Proof.
  unfold requirePinFor, bind, ret, throw, prompt, alert.
  destruct (storedPin r name) as [stored|[]]; [|now left].
  destruct (negb _); [now auto|].
  destruct (decide _); simpl; auto.
Qed.

Lemma handleComplete_eq i w k r c :
  handleComplete i w k r c =
    let runBy := claimed c (defaultName r) in
    if Js.truthy runBy then
      match requirePinFor runBy r (answered c) with
      | (Threw e, c1) => (Threw e, c1)
      | (Returned allowed, c1) =>
          if allowed then
            let unloadBy := claimed c1 runBy in
            match requirePinFor unloadBy r (answered c1) with
            | (Threw e, c2) => (Threw e, c2)
            | (Returned allowed', c2) =>
                if allowed'
                then (Returned (completeLoad i w k runBy unloadBy true r), c2)
                else (Returned [], c2)
            end
          else (Returned [], c1)
      end
    else (Returned [], alerted SetRoommatesFirst (answered c)).
Proof.
  unfold handleComplete, claimed, bind, ret, prompt. simpl.
  set (runBy := Js.or_else _ (defaultName r)).
  destruct (Js.truthy runBy) eqn:Hrun; simpl; [|reflexivity].
  fold (answered c).
  set (p := requirePinFor runBy r _). destruct p as [[[]|e] c1]; simpl;
    try reflexivity.
  set (unloadBy := Js.or_else _ runBy).
  assert (Js.truthy unloadBy = true) as ->.
  { subst unloadBy. unfold Js.or_else, replyText.
    destruct (replies c1 (asked c1)) as [|t]; simpl; [exact Hrun|].
    destruct (Js.truthy (Js.trim t)) eqn:Ht; [exact Ht|exact Hrun]. }
  simpl. fold (answered c1).
  set (p := requirePinFor unloadBy r _). now destruct p as [[[]|e] c2].
Qed.

Lemma claimed_nonempty c fallback : fallback <> "" -> claimed c fallback <> "".
Proof.
  intros Hf. unfold claimed, Js.or_else.
  destruct (Js.trim <$> replyText c) as [t|]; [|assumption].
  destruct (Js.truthy t) eqn:Ht; [now apply truthy_nonempty|assumption].
Qed.

Lemma current_nonempty r n : current r = Some n -> n <> "".
Proof.
  unfold current. destruct (activeQueue r) as [|a rest]; [discriminate|].
  destruct (Js.truthy a) eqn:Ha; [|discriminate].
  intros [= <-]. now apply truthy_nonempty.
Qed.

(** A handler enqueues nothing, or one completed load with two names. *)
Lemma handleComplete_cases i w k r c us c' :
  handleComplete i w k r c = (Returned us, c') ->
  us = [] \/
  exists a b, a <> "" /\ b <> "" /\ us = completeLoad i w k a b true r.
Proof.
  rewrite handleComplete_eq. cbv zeta.
  destruct (Js.truthy _) eqn:Hrun; [|intros [= <- _]; now left].
  apply truthy_nonempty in Hrun.
  destruct (requirePinFor _ r (answered c)) as [[[]|e] c1];
    [|intros [= <- _]; now left|discriminate].
  destruct (requirePinFor _ r (answered c1)) as [[[]|e] c2];
    [intros [= <- _]; right|intros [= <- _]; now left|discriminate].
  eexists _, _. split; [exact Hrun|]. split; [|reflexivity].
  now apply claimed_nonempty.
Qed.

Lemma quickClaim_cases i w k name action r c us c' :
  name <> "" ->
  quickClaim i w k name action r c = (Returned us, c') ->
  us = [] \/
  exists a b, a <> "" /\ b <> "" /\ us = completeLoad i w k a b true r.
Proof.
  intros Hname. unfold quickClaim, bind, ret.
  destruct (requirePinFor _ r c) as [[[]|e] c2]; simpl;
    [|intros [= <- _]; now left|discriminate].
  destruct action; intros [= <- _]; right.
  - now exists name, name.
  - exists (default name (current r)), name. split; [|now split].
    destruct (current r) as [n|] eqn:Hn; [|assumption].
    now apply (current_nonempty r).
Qed.

End Handlers.

(** ** Rebuilding the ledger and the PIN registry *)

Section Rebuild.

Context {V : Type}.

(** [list.reduce((acc, n) => ({ ...acc, [n]: f(n) }), m)] *)
Lemma reduce_lookup_in (f : string -> V) l (m : gmap string V) x :
  In x l -> fold_left (fun acc n => <[n := f n]> acc) l m !! x = Some (f x).
Proof.
  revert m. induction l as [|n l IH] using rev_ind; intros m; [intros []|].
  rewrite fold_left_app. simpl. intros Hin.
  destruct (decide (n = x)) as [->|Hne]; [apply lookup_insert_eq|].
  rewrite lookup_insert_ne by assumption. apply IH.
  apply in_app_or in Hin as [Hin|[Hin|[]]]; [assumption|contradiction].
Qed.

Lemma reduce_lookup_out (f : string -> V) l (m : gmap string V) x :
  ~ In x l -> fold_left (fun acc n => <[n := f n]> acc) l m !! x = m !! x.
Proof.
  revert m. induction l as [|n l IH]; intros m Hout; [reflexivity|].
  simpl. rewrite IH by (intros H; apply Hout; now right).
  apply lookup_insert_ne. intros ->. apply Hout. now left.
Qed.

(** The loop of the effect: a key that reads [undefined] gets the
    default. *)
Lemma ensure_lookup (d : V) l (m : gmap string V) x :
  fold_left (fun acc n => if get acc n is Missing then <[n := d]> acc else acc)
            l m !! x
  = match m !! x with
    | Some v => Some v
    | None =>
        if in_dec string_dec x l
        then (if Js.inherited x then None else Some d)
        else None
    end.
Proof.
  revert m. induction l as [|n l IH]; intros m.
  - simpl. now destruct (m !! x).
  - cbn [fold_left]. rewrite IH. clear IH.
    destruct (get m n) eqn:Hg.
    1,2: destruct (m !! x) eqn:Hx; [reflexivity|];
      destruct (in_dec string_dec x l) as [Hl|Hl];
      destruct (in_dec string_dec x (n :: l)) as [Hnl|Hnl]; try reflexivity;
      [exfalso; apply Hnl; now right|];
      destruct Hnl as [->|]; [|contradiction];
      unfold get in Hg; rewrite Hx in Hg;
      destruct (Js.inherited x); [reflexivity|discriminate].
    apply get_Missing_iff in Hg as [Hn Hin].
    destruct (decide (n = x)) as [->|Hne].
    + rewrite lookup_insert_eq, Hn, Hin.
      destruct (in_dec string_dec x (x :: l)) as [|Hnl]; [reflexivity|].
      exfalso. apply Hnl. now left.
    + rewrite lookup_insert_ne by assumption.
      destruct (m !! x); [reflexivity|].
      destruct (in_dec string_dec x l) as [Hl|Hl];
        destruct (in_dec string_dec x (n :: l)) as [Hnl|Hnl]; try reflexivity.
      * exfalso. apply Hnl. now right.
      * destruct Hnl as [->|]; [congruence|contradiction].
Qed.

End Rebuild.

Section Settle.

Lemma ensure_pair {A B} (F : A -> string -> A) (G : B -> string -> B) l a b :
  fold_left (fun '(x, y) n => (F x n, G y n)) l (a, b)
  = (fold_left F l a, fold_left G l b).
Proof.
  revert a b. induction l as [|n l IH]; intros a b; [reflexivity|].
  simpl. apply IH.
Qed.

Lemma settle_eq s :
  settle s =
    {| roommates := roommates s; queue := queue s; paused := paused s;
       credits :=
         fold_left (fun acc n => if get acc n is Missing
                                 then <[n := Num 0%Qc]> acc else acc)
                   (roommates s) (credits s);
       history := history s;
       pins :=
         fold_left (fun acc n => if get acc n is Missing
                                 then <[n := Pin ""]> acc else acc)
                   (roommates s) (pins s) |}.
Proof.
  unfold settle, ensureEntries.
  rewrite (ensure_pair
    (fun uc n => if get uc n is Missing then <[n := Num 0%Qc]> uc else uc)
    (fun up n => if get up n is Missing then <[n := Pin ""]> up else up)).
  destruct (decide _) as [Hch|Hsame]; [reflexivity|].
  simpl. destruct s as [rm q p cr h pn]. simpl in *. f_equal.
  - destruct (decide (fold_left (fun acc n =>
        if get acc n is Missing then <[n := Num 0%Qc]> acc else acc) rm cr
        = cr))
      as [->|Hne]; [reflexivity|]. exfalso. apply Hsame. now left.
  - destruct (decide (fold_left (fun acc n =>
        if get acc n is Missing then <[n := Pin ""]> acc else acc) rm pn
        = pn))
      as [->|Hne]; [reflexivity|]. exfalso. apply Hsame. now right.
Qed.

End Settle.

(** ** The rotation *)

Section Filters.

Context {A : Type}.

Lemma filter_all (f : A -> bool) l :
  forallb f l = true -> List.filter f l = l.
Proof.
  induction l as [|x l IH]; simpl; [reflexivity|].
  intros [-> Hl]%andb_true_iff. now rewrite IH.
Qed.

Lemma filter_disjoint (f g : A -> bool) l :
  (forall x, g x = true -> f x = false) ->
  forallb g l = true -> List.filter f l = [].
Proof.
  intros Hfg. induction l as [|x l IH]; simpl; [reflexivity|].
  intros [Hx Hl]%andb_true_iff. now rewrite (Hfg _ Hx), IH.
Qed.

Lemma forallb_filter (f : A -> bool) l : forallb f (List.filter f l) = true.
Proof.
  induction l as [|x l IH]; simpl; [reflexivity|].
  destruct (f x) eqn:Hx; simpl; [now rewrite Hx|assumption].
Qed.

Lemma filter_filter_comm (f g : A -> bool) l :
  List.filter f (List.filter g l) = List.filter (fun x => g x && f x) l.
Proof.
  induction l as [|x l IH]; simpl; [reflexivity|].
  destruct (g x); simpl; [destruct (f x)|]; now rewrite IH.
Qed.

Lemma rotate_left1_length (l : list A) :
  length (rotate_left1 l) = length l.
Proof.
  destruct l as [|a l]; simpl; [reflexivity|]. rewrite length_app. simpl. lia.
Qed.

Lemma forallb_rotate_left1 (f : A -> bool) l :
  forallb f l = true -> forallb f (rotate_left1 l) = true.
Proof.
  destruct l as [|a l]; simpl; [reflexivity|].
  intros [Ha Hl]%andb_true_iff. rewrite forallb_app. simpl.
  now rewrite Ha, Hl.
Qed.

(** [k] rotations by one, for [k] up to the length. *)
Lemma iter_rotate_left1 (l : list A) k :
  (k <= length l)%nat -> Nat.iter k rotate_left1 l = drop k l ++ take k l.
Proof.
  induction k as [|k IH]; intros Hk.
  - simpl. now rewrite drop_0, app_nil_r.
  - rewrite Nat.iter_succ, IH by lia.
    destruct (lookup_lt_is_Some_2 l k ltac:(lia)) as [x Hx].
    rewrite (drop_S _ _ _ Hx), (take_S_r _ _ _ Hx). simpl.
    now rewrite <- app_assoc.
Qed.

Lemma iter_rotate_left1_full (l : list A) :
  Nat.iter (length l) rotate_left1 l = l.
Proof.
  rewrite iter_rotate_left1 by lia.
  now rewrite drop_all, firstn_all.
Qed.

(** Without repeated names no shorter run of rotations is the identity. *)
Lemma iter_rotate_left1_proper (l : list A) k :
  List.NoDup l -> (0 < k < length l)%nat -> Nat.iter k rotate_left1 l <> l.
Proof.
  intros Hnd Hk Heq. rewrite iter_rotate_left1 in Heq by lia.
  destruct (lookup_lt_is_Some_2 l k ltac:(lia)) as [x Hx].
  rewrite (drop_S _ _ _ Hx) in Heq.
  destruct l as [|y l]; [simpl in Hk; lia|].
  injection Heq as -> _.
  destruct k as [|k]; [lia|]. simpl in Hx.
  apply NoDup_cons_iff in Hnd as [Hy _]. apply Hy.
  apply list_elem_of_In, list_elem_of_lookup. eauto.
Qed.

End Filters.

Section Advance.

Lemma active_not_paused s :
  forallb (fun n => negb (is_paused (paused s) n)) (activeQueue s) = true.
Proof. apply forallb_filter. Qed.

Lemma pausedList_paused s :
  forallb (fun n => is_paused (paused s) n) (pausedList s) = true.
Proof. apply forallb_filter. Qed.

Lemma advance_eq s :
  advance s =
    match activeQueue s with
    | [] => s
    | _ :: _ => with_queue (rotate_left1 (activeQueue s) ++ pausedList s) s
    end.
Proof.
  unfold advance, advanceQueue. now destruct (activeQueue s).
Qed.

Lemma advance_paused s : paused (advance s) = paused s.
Proof. rewrite advance_eq. now destruct (activeQueue s). Qed.

Lemma advance_active s :
  activeQueue (advance s) = rotate_left1 (activeQueue s).
Proof.
  rewrite advance_eq. destruct (activeQueue s) as [|a0 rest] eqn:Ha;
    [now rewrite Ha|].
  unfold activeQueue at 1. cbn [with_queue queue paused].
  rewrite List.filter_app.
  rewrite (filter_disjoint _ (fun n => is_paused (paused s) n) (pausedList s)),
    app_nil_r.
  - apply filter_all, forallb_rotate_left1.
    rewrite <- Ha. apply active_not_paused.
  - intros x ->. reflexivity.
  - apply pausedList_paused.
Qed.

Lemma advance_pausedList s : pausedList (advance s) = pausedList s.
Proof.
  rewrite advance_eq. destruct (activeQueue s) as [|a0 rest] eqn:Ha;
    [reflexivity|].
  unfold pausedList at 1. cbn [with_queue queue paused].
  rewrite List.filter_app.
  rewrite (filter_disjoint _ (fun n => negb (is_paused (paused s) n))).
  - apply filter_all, pausedList_paused.
  - intros x Hx. now apply negb_true_iff in Hx.
  - apply forallb_rotate_left1. rewrite <- Ha. apply active_not_paused.
Qed.

Lemma advance_queue s :
  activeQueue s <> [] ->
  queue (advance s) = rotate_left1 (activeQueue s) ++ pausedList s.
Proof.
  rewrite advance_eq. now destruct (activeQueue s).
Qed.

Lemma advance_partitioned s : partitioned s -> partitioned (advance s).
Proof.
  unfold partitioned. intros Hp.
  rewrite advance_active, advance_pausedList.
  destruct (activeQueue s) as [|a0 rest] eqn:Ha.
  - rewrite advance_eq, Ha. exact Hp.
  - rewrite advance_queue by (rewrite Ha; discriminate). now rewrite Ha.
Qed.

(** [advance] touches the queue only. *)
Lemma advance_rest s :
  advance s = with_queue (queue (advance s)) s.
Proof.
  rewrite advance_eq. destruct (activeQueue s); [now destruct s|reflexivity].
Qed.

Lemma iter_advance_active k s :
  activeQueue (Nat.iter k advance s) = Nat.iter k rotate_left1 (activeQueue s).
Proof.
  induction k as [|k IH]; [reflexivity|].
  now rewrite !Nat.iter_succ, advance_active, IH.
Qed.

Lemma iter_advance_pausedList k s :
  pausedList (Nat.iter k advance s) = pausedList s.
Proof.
  induction k as [|k IH]; [reflexivity|].
  now rewrite Nat.iter_succ, advance_pausedList.
Qed.

Lemma iter_advance_partitioned k s :
  partitioned s -> partitioned (Nat.iter k advance s).
Proof.
  intros Hp. induction k as [|k IH]; [assumption|].
  rewrite Nat.iter_succ. now apply advance_partitioned.
Qed.

Lemma iter_advance_rest k s :
  Nat.iter k advance s = with_queue (queue (Nat.iter k advance s)) s.
Proof.
  induction k as [|k IH]; [now destruct s|].
  rewrite Nat.iter_succ, advance_rest. rewrite IH at 2. reflexivity.
Qed.

End Advance.

(** ** Pausing *)

Section Pause.

Lemma is_paused_insert p x b n :
  is_paused (<[x := b]> p) n = if String.eqb n x then b else is_paused p n.
Proof.
  unfold is_paused. destruct (String.eqb_spec n x) as [->|Hne].
  - now rewrite get_insert_eq.
  - now rewrite get_insert_ne by congruence.
Qed.

Lemma toggle_eq x s :
  toggle x s =
    let p := <[x := negb (is_paused (paused s) x)]> (paused s) in
    {| roommates := roommates s;
       queue := List.filter (fun n => negb (is_paused p n)) (queue s)
                ++ List.filter (fun n => is_paused p n) (queue s);
       paused := p; credits := credits s; history := history s;
       pins := pins s |}.
Proof. reflexivity. Qed.


(** Splitting a list by a test keeps its elements. *)
Lemma split_permutation {A} (f : A -> bool) l :
  Permutation (List.filter (fun n => negb (f n)) l ++ List.filter f l) l.
Proof.
  induction l as [|a l IH]; simpl; [constructor|].
  destruct (f a); simpl.
  - symmetry. apply Permutation_cons_app. now symmetry.
  - now constructor.
Qed.

Lemma toggle_permutation x s : Permutation (queue (toggle x s)) (queue s).
Proof. rewrite toggle_eq. simpl. apply split_permutation. Qed.



End Pause.

(** ** Replacing the roster *)

Section Roster.

Lemma ensure_noop {V} (d : V) l (m : gmap string V) :
  (forall n, In n l -> get m n <> Missing) ->
  fold_left (fun acc n => if get acc n is Missing then <[n := d]> acc else acc)
            l m
  = m.
Proof.
  intros Hall. apply map_eq. intros x. rewrite ensure_lookup.
  destruct (m !! x) eqn:Hx; [reflexivity|].
  destruct (in_dec string_dec x l) as [Hin|]; [|reflexivity].
  destruct (Js.inherited x) eqn:Hi; [reflexivity|].
  destruct (Hall _ Hin). now apply get_missing.
Qed.

Lemma setRoster_eq value s :
  parseNames value <> [] ->
  setRoster value s =
    {| roommates := parseNames value;
       queue := List.filter (fun n => negb (is_paused (paused s) n))
                            (parseNames value);
       paused := paused s;
       credits :=
         fold_left (fun acc n => <[n := readCredit (credits s) n]> acc)
                   (parseNames value) ∅;
       history := history s;
       pins :=
         fold_left (fun acc n => <[n := readPin (pins s) n]> acc)
                   (parseNames value) ∅ |}.
Proof.
  intros Hne. unfold setRoster, setRoommatesFromInput.
  destruct (decide _) as [|_]; [contradiction|].
  rewrite settle_eq. unfold commit. simpl. f_equal.
  - apply ensure_noop. intros n Hin.
    rewrite (get_own _ _ _
      (reduce_lookup_in (fun n => readCredit (credits s) n) _ _ _ Hin)).
    discriminate.
  - apply ensure_noop. intros n Hin.
    rewrite (get_own _ _ _
      (reduce_lookup_in (fun n => readPin (pins s) n) _ _ _ Hin)).
    discriminate.
Qed.

Lemma reduce_keys {V} (f : string -> V) l n :
  is_Some (fold_left (fun acc n => <[n := f n]> acc) l (∅ : gmap string V) !! n)
  <-> In n l.
Proof.
  destruct (in_dec string_dec n l) as [Hin|Hout].
  - rewrite reduce_lookup_in by assumption. split; eauto.
  - rewrite reduce_lookup_out, lookup_empty by assumption.
    split; [intros [? [=]]|contradiction].
Qed.

End Roster.

(** ** Reordering *)

Section Reorder.

Lemma splice_nat {A} (l : list A) (i d : nat) (items : list A) :
  (i <= length l)%nat -> (d <= length l - i)%nat ->
  Js.splice l (Z.of_nat i) (Z.of_nat d) items
  = (take d (drop i l), take i l ++ items ++ drop (i + d) l).
Proof.
  intros Hi Hd. unfold Js.splice.
  destruct (Z.ltb_spec (Z.of_nat i) 0) as [Hneg|_]; [lia|].
  replace (Z.to_nat (Z.min (Z.of_nat i) (Z.of_nat (length l)))) with i by lia.
  replace (Z.to_nat (Z.min (Z.max (Z.of_nat d) 0)
             (Z.of_nat (length l) - Z.min (Z.of_nat i) (Z.of_nat (length l)))))
    with d by lia.
  reflexivity.
Qed.

(** Inserting at or beyond the end appends. *)
Lemma splice_insert {A} (l : list A) (i : nat) (items : list A) :
  snd (Js.splice l (Z.of_nat i) 0 items) = take i l ++ items ++ drop i l.
Proof.
  unfold Js.splice.
  destruct (Z.ltb_spec (Z.of_nat i) 0) as [Hneg|_]; [lia|].
  replace (Z.to_nat (Z.min (Z.max 0 0) _)) with 0%nat by lia.
  cbn [snd]. rewrite Nat.add_0_r.
  destruct (Nat.le_gt_cases i (length l)) as [Hle|Hgt].
  - now replace (Z.to_nat (Z.min (Z.of_nat i) (Z.of_nat (length l)))) with i
      by lia.
  - replace (Z.to_nat (Z.min (Z.of_nat i) (Z.of_nat (length l))))
      with (length l) by lia.
    now rewrite firstn_all, drop_all, (take_ge l i), (drop_ge l i) by lia.
Qed.

Lemma reorderQueue_same i r : reorderQueue i i r = Unchanged.
Proof. unfold reorderQueue. now destruct (decide (i = i)). Qed.

Lemma reorderQueue_inrange (fromIdx toIdx : nat) (r : state) x :
  activeQueue r !! fromIdx = Some x ->
  fromIdx <> toIdx ->
  reorderQueue (Z.of_nat fromIdx) (Z.of_nat toIdx) r
  = Requeued
      (let rest := delete fromIdx (activeQueue r) in
       (take toIdx rest ++ x :: drop toIdx rest) ++ pausedList r).
Proof.
  intros Hx Hne. unfold reorderQueue.
  destruct (decide (Z.of_nat fromIdx = Z.of_nat toIdx)) as [|_]; [lia|].
  pose proof (lookup_lt_Some _ _ _ Hx) as Hlt.
  rewrite (splice_nat _ fromIdx 1) by (rewrite ?length_fmap; lia).
  cbv zeta.
  assert (default None
            (head (take 1 (drop fromIdx (Some <$> activeQueue r)))) = Some x)
    as ->.
  { rewrite <- fmap_drop, (drop_S _ _ _ Hx). reflexivity. }
  rewrite app_nil_l.
  pose proof (splice_insert
    (take fromIdx (Some <$> activeQueue r)
     ++ drop (fromIdx + 1) (Some <$> activeQueue r)) toIdx [Some x]) as Hins.
  destruct (Js.splice _ (Z.of_nat toIdx) 0 [Some x]) as [removed active2].
  cbn [snd] in Hins. subst active2.
  assert (take fromIdx (Some <$> activeQueue r)
          ++ drop (fromIdx + 1) (Some <$> activeQueue r)
          = Some <$> delete fromIdx (activeQueue r)) as ->.
  { rewrite <- fmap_take, <- fmap_drop, <- fmap_app.
    f_equal. rewrite Nat.add_1_r. symmetry. apply delete_take_drop. }
  rewrite <- fmap_take, <- fmap_drop.
  change [Some x] with (Some <$> [x]).
  rewrite <- !fmap_app.
  now rewrite (mapM_fmap_Some (fun o => o) Some) by reflexivity.
Qed.




Lemma splice_nothing {A} (l : list A) (i : nat) :
  (length l <= i)%nat -> Js.splice l (Z.of_nat i) 1 [] = ([], l).
Proof.
  intros Hi. unfold Js.splice.
  destruct (Z.ltb_spec (Z.of_nat i) 0) as [Hneg|_]; [lia|].
  replace (Z.to_nat (Z.min (Z.of_nat i) (Z.of_nat (length l))))
    with (length l) by lia.
  replace (Z.to_nat (Z.min (Z.max 1 0)
             (Z.of_nat (length l) - Z.min (Z.of_nat i) (Z.of_nat (length l)))))
    with 0%nat by lia.
  now rewrite take_0, firstn_all, Nat.add_0_r, drop_all, app_nil_r.
Qed.



End Reorder.

Section Moved.

Context {A : Type}.



Lemma insert_at_permutation (l : list A) i j x :
  l !! i = Some x ->
  Permutation (take j (delete i l) ++ x :: drop j (delete i l)) l.
Proof.
  intros Hx. rewrite <- Permutation_middle, take_drop.
  symmetry. now apply delete_Permutation.
Qed.

End Moved.

Section Requeue.

Variables (r : state) (moved : list string).

Hypothesis moved_active :
  forallb (fun n => negb (is_paused (paused r) n)) moved = true.

(** Active names in a new order, followed by the paused names. *)
Lemma requeue_active :
  activeQueue (with_queue (moved ++ pausedList r) r) = moved.
Proof.
  unfold activeQueue at 1. cbn [with_queue queue paused].
  rewrite List.filter_app, (filter_all _ _ moved_active).
  rewrite (filter_disjoint _ (fun n => is_paused (paused r) n)), app_nil_r;
    [reflexivity| |apply pausedList_paused].
  intros n ->. reflexivity.
Qed.

Lemma requeue_pausedList :
  pausedList (with_queue (moved ++ pausedList r) r) = pausedList r.
Proof.
  unfold pausedList at 1. cbn [with_queue queue paused].
  rewrite List.filter_app.
  rewrite (filter_disjoint _ (fun n => negb (is_paused (paused r) n)) moved).
  - apply filter_all, pausedList_paused.
  - intros n Hn. now apply negb_true_iff in Hn.
  - exact moved_active.
Qed.

Lemma requeue_partitioned : partitioned (with_queue (moved ++ pausedList r) r).
Proof.
  unfold partitioned. now rewrite requeue_active, requeue_pausedList.
Qed.

End Requeue.

Lemma permuted_active r moved :
  Permutation moved (activeQueue r) ->
  forallb (fun n => negb (is_paused (paused r) n)) moved = true.
Proof.
  intros Hperm. apply forallb_forall. intros n Hn.
  apply (Permutation_in _ Hperm) in Hn.
  pose proof (active_not_paused r) as Hall.
  rewrite forallb_forall in Hall. now apply Hall.
Qed.

(** ** Completing a load *)

Section Complete.

Variables (i w : string) (k : load_kind) (r : state) (c : console).

Lemma requirePinFor_false name c0 :
  fst (requirePinFor name r c0) = Returned false ->
  requirePinFor name r c0
  = (Returned false, alerted IncorrectPin (answered c0)).
Proof.
  destruct (requirePinFor_console name r c0) as [H|[H|[H|H]]]; rewrite H;
    simpl; congruence.
Qed.

Lemma handleComplete_runner_denied :
  let runBy := claimed c (defaultName r) in
  runBy <> "" ->
  fst (requirePinFor runBy r (answered c)) = Returned false ->
  handleComplete i w k r c
  = (Returned [], alerted IncorrectPin (answered (answered c))).
Proof.
  intros runBy Hne%truthy_nonempty Hgate.
  rewrite handleComplete_eq. cbv zeta. fold runBy. rewrite Hne.
  now rewrite (requirePinFor_false _ _ Hgate).
Qed.

Lemma handleComplete_unloader_denied :
  let runBy := claimed c (defaultName r) in
  let gate1 := requirePinFor runBy r (answered c) in
  let unloadBy := claimed (snd gate1) runBy in
  runBy <> "" ->
  fst gate1 = Returned true ->
  fst (requirePinFor unloadBy r (answered (snd gate1))) = Returned false ->
  handleComplete i w k r c
  = (Returned [], alerted IncorrectPin (answered (answered (snd gate1)))).
Proof.
  intros runBy gate1 unloadBy Hne%truthy_nonempty Hgate1 Hgate2.
  rewrite handleComplete_eq. cbv zeta. fold runBy. rewrite Hne.
  fold gate1. subst unloadBy. destruct gate1 as [ok1 c1]. simpl in *.
  subst ok1. now rewrite (requirePinFor_false _ _ Hgate2).
Qed.

(** The runner's gate throws: the handler stops there, and nothing is
    enqueued. *)
Lemma handleComplete_runner_throws :
  let runBy := claimed c (defaultName r) in
  runBy <> "" ->
  storedPin r runBy = Threw TypeError ->
  handleComplete i w k r c = (Threw TypeError, answered c).
Proof.
  intros runBy Hne%truthy_nonempty Hpin.
  rewrite handleComplete_eq. cbv zeta. fold runBy. rewrite Hne.
  now rewrite (requirePinFor_throws _ _ _ _ Hpin).
Qed.

Lemma handleComplete_allowed runBy unloadBy :
  claimed c (defaultName r) = runBy ->
  runBy <> "" ->
  storedPin r runBy = Returned "" ->
  claimed (answered c) runBy = unloadBy ->
  storedPin r unloadBy = Returned "" ->
  handleComplete i w k r c
  = (Returned (completeLoad i w k runBy unloadBy true r),
     answered (answered c)).
Proof.
  intros Hrun Hne%truthy_nonempty Hpin Hunload Hpin'.
  rewrite handleComplete_eq. cbv zeta. rewrite Hrun, Hne.
  rewrite (requirePinFor_no_pin _ _ _ Hpin), Hunload.
  now rewrite (requirePinFor_no_pin _ _ _ Hpin').
Qed.

End Complete.

(** ** Quick claims *)

Section QuickClaim.

Variables (i w : string) (k : load_kind) (name : string) (r : state).

Lemma quickClaim_eq action c :
  quickClaim i w k name action r c =
    match requirePinFor name r c with
    | (Threw e, c1) => (Threw e, c1)
    | (Returned allowed, c1) =>
        if allowed then
          (Returned
             (completeLoad i w k
                match action with
                | Run => name
                | Unload => default name (current r)
                end
                name true r), c1)
        else (Returned [], c1)
    end.
Proof.
  unfold quickClaim, bind, ret.
  destruct (requirePinFor name r c) as [[[]|e] c1]; simpl; try reflexivity.
  now destruct action.
Qed.

Lemma requirePinFor_true c :
  fst (requirePinFor name r c) = Returned true ->
  requirePinFor name r c = (Returned true, c) \/
  requirePinFor name r c = (Returned true, answered c).
Proof.
  destruct (requirePinFor_console name r c) as [H|[H|[H|H]]]; rewrite H; simpl;
    auto; discriminate.
Qed.

(** The queue is advanced as the render saw it; recording the load first
    and advancing the result gives the same state. *)
Lemma completeLoad_advance a b :
  commit (completeLoad i w k a b true r) r
  = advance (recordCompletion i w k a b r).
Proof.
  rewrite completeLoad_commit, (advance_eq (recordCompletion i w k a b r)).
  change (activeQueue (recordCompletion i w k a b r)) with (activeQueue r).
  change (pausedList (recordCompletion i w k a b r)) with (pausedList r).
  rewrite advance_eq.
  destruct (activeQueue r); [|reflexivity].
  unfold with_queue. reflexivity.
Qed.

End QuickClaim.

(** ** The effect that completes the ledger and the PIN registry *)

Section Effect.

Lemma ensureEntries_complete s :
  (forall n, In n (roommates s) ->
     get (credits s) n <> Missing /\ get (pins s) n <> Missing) ->
  ensureEntries s = [].
Proof.
  intros Hall. unfold ensureEntries.
  rewrite (ensure_pair
    (fun uc n => if get uc n is Missing then <[n := Num 0%Qc]> uc else uc)
    (fun up n => if get up n is Missing then <[n := Pin ""]> up else up)).
  rewrite !ensure_noop by (intros n Hn; now apply Hall).
  destruct (decide _) as [[Hc|Hp]|_]; [congruence|congruence|reflexivity].
Qed.

Lemma settle_credits s n :
  credits (settle s) !! n
  = match credits s !! n with
    | Some q => Some q
    | None =>
        if in_dec string_dec n (roommates s)
        then (if Js.inherited n then None else Some (Num 0%Qc))
        else None
    end.
Proof. rewrite settle_eq. apply ensure_lookup. Qed.

Lemma settle_pins s n :
  pins (settle s) !! n
  = match pins s !! n with
    | Some p => Some p
    | None =>
        if in_dec string_dec n (roommates s)
        then (if Js.inherited n then None else Some (Pin ""))
        else None
    end.
Proof. rewrite settle_eq. apply ensure_lookup. Qed.

Lemma settle_roommates s : roommates (settle s) = roommates s.
Proof. now rewrite settle_eq. Qed.

(** After the effect no roommate reads [undefined]. *)
Lemma settle_reads s n :
  In n (roommates s) ->
  get (credits (settle s)) n <> Missing /\ get (pins (settle s)) n <> Missing.
Proof.
  intros Hn. rewrite !get_Missing_iff, settle_credits, settle_pins.
  destruct (in_dec string_dec n (roommates s)); [|contradiction].
  destruct (credits s !! n), (pins s !! n), (Js.inherited n);
    split; intros [? ?]; congruence.
Qed.

End Effect.

(** ** Invariants of the running application *)

Section Invariants.

Lemma partitioned_ext s t :
  queue s = queue t -> paused s = paused t -> partitioned t -> partitioned s.
Proof.
  unfold partitioned, activeQueue, pausedList. now intros -> ->.
Qed.

Lemma partitioned_split (p : gmap string bool) (l : list string) s :
  paused s = p ->
  queue s = List.filter (fun n => negb (is_paused p n)) l
            ++ List.filter (fun n => is_paused p n) l ->
  partitioned s.
Proof.
  intros Hp Hq. unfold partitioned, activeQueue, pausedList.
  rewrite Hp, Hq. rewrite !List.filter_app.
  set (A := List.filter (fun n => negb (is_paused p n)) l).
  set (P := List.filter (fun n => is_paused p n) l).
  assert (forallb (fun n => negb (is_paused p n)) A = true) as HA
    by apply forallb_filter.
  assert (forallb (fun n => is_paused p n) P = true) as HP
    by apply forallb_filter.
  rewrite (filter_all _ A HA), (filter_all _ P HP).
  rewrite (filter_disjoint (fun n => negb (is_paused p n))
             (fun n => is_paused p n) P), app_nil_r;
    [|now intros n ->|exact HP].
  rewrite (filter_disjoint (fun n => is_paused p n)
             (fun n => negb (is_paused p n)) A);
    [reflexivity| |exact HA].
  intros n Hn. now apply negb_true_iff in Hn.
Qed.

Lemma wf_default : well_formed defaultState.
Proof.
  split; simpl.
  - lia.
  - intuition (subst; discriminate).
  - intros n [pin Hpin]. now rewrite lookup_empty in Hpin.
  - intros n pin Hpin. now rewrite lookup_empty in Hpin.
  - reflexivity.
Qed.

Lemma wf_settle s : well_formed s -> well_formed (settle s).
Proof.
  intros [Hh Hn Hr Hf Hp]. rewrite settle_eq. split; simpl.
  - assumption.
  - assumption.
  - intros n [pin Hpin]. rewrite ensure_lookup in Hpin.
    destruct (pins s !! n) eqn:Hlook; [apply Hr; eauto|].
    now destruct (in_dec string_dec n (roommates s)).
  - intros n pin Hpin. rewrite ensure_lookup in Hpin.
    destruct (pins s !! n) eqn:Hlook.
    + injection Hpin as ->. eauto.
    + destruct (in_dec string_dec n (roommates s)); [|discriminate].
      destruct (Js.inherited n); [discriminate|].
      injection Hpin as <-. now left.
  - now apply (partitioned_ext _ s).
Qed.

Lemma parseNames_nonempty value n : In n (parseNames value) -> n <> "".
Proof.
  unfold parseNames. intros [_ Ht]%filter_In. now apply truthy_nonempty.
Qed.

Lemma wf_setRoster value r : well_formed r -> well_formed (setRoster value r).
Proof.
  intros Hwf. destruct (decide (parseNames value = [])) as [Hnil|Hne].
  { unfold setRoster, setRoommatesFromInput. now rewrite decide_True. }
  destruct Hwf as [Hh Hn Hr Hf Hp]. rewrite setRoster_eq by assumption.
  split; cbn [roommates queue paused credits history pins].
  - assumption.
  - apply parseNames_nonempty.
  - intros n Hsome. now apply (reduce_keys _ (parseNames value)) in Hsome.
  - intros n pin Hpin.
    destruct (in_dec string_dec n (parseNames value)) as [Hin|Hout].
    + rewrite (reduce_lookup_in (fun n => readPin (pins r) n))
        in Hpin by assumption.
      injection Hpin as Hpin. unfold readPin, get in Hpin.
      destruct (pins r !! n) eqn:Hlook; [subst; eauto|].
      destruct (Js.inherited n); [discriminate|].
      injection Hpin as <-. now left.
    + rewrite reduce_lookup_out, lookup_empty in Hpin by assumption.
      discriminate.
  - unfold partitioned, activeQueue, pausedList.
    cbn [roommates queue paused credits history pins].
    set (A := List.filter (fun n => negb (is_paused (paused r) n))
                          (parseNames value)).
    assert (forallb (fun n => negb (is_paused (paused r) n)) A = true) as HA
      by apply forallb_filter.
    rewrite (filter_all _ A HA).
    rewrite (filter_disjoint (fun n => is_paused (paused r) n)
               (fun n => negb (is_paused (paused r) n)) A);
      [now rewrite app_nil_r| |exact HA].
    intros n Hact. now apply negb_true_iff in Hact.
Qed.

Lemma wf_toggle name s : well_formed s -> well_formed (toggle name s).
Proof.
  intros [Hh Hn Hr Hf Hp]. split; try assumption.
  now apply (partitioned_split
    (<[name := negb (is_paused (paused s) name)]> (paused s)) (queue s)).
Qed.

(** What the arrows hand to [setState]. *)
Lemma click_requeue (idx target : nat) r q :
  (idx < length (activeQueue r))%nat ->
  reorderQueue (Z.of_nat idx) (Z.of_nat target) r = Requeued q ->
  exists moved,
    q = moved ++ pausedList r /\ Permutation moved (activeQueue r).
Proof.
  intros Hidx Hre.
  destruct (decide (idx = target)) as [<-|Hne].
  { now rewrite reorderQueue_same in Hre. }
  destruct (lookup_lt_is_Some_2 _ _ Hidx) as [x Hx].
  rewrite (reorderQueue_inrange idx target r x Hx Hne) in Hre.
  injection Hre as <-. eexists. split; [reflexivity|].
  now apply insert_at_permutation.
Qed.

Lemma wf_click (idx target : nat) r q :
  (idx < length (activeQueue r))%nat ->
  reorderQueue (Z.of_nat idx) (Z.of_nat target) r = Requeued q ->
  well_formed r -> well_formed (with_queue q r).
Proof.
  intros Hidx Hre [Hh Hn Hr Hf Hp].
  destruct (click_requeue idx target r q Hidx Hre) as (moved & -> & Hperm).
  split; try assumption.
  now apply requeue_partitioned, permuted_active.
Qed.

Lemma wf_setPin n value r c us c' :
  In n (roommates r) ->
  setPin n value r c = (Returned us, c') ->
  well_formed r -> well_formed (commit us r).
Proof.
  intros Hin Hset [Hh Hn Hr Hf Hp].
  destruct (Js.truthy (Js.trim value) && negb (Js.pin_regex (Js.trim value)))
    eqn:Hbad.
  { apply andb_true_iff in Hbad as [Ht Hre%negb_true_iff].
    rewrite setPin_rejects in Hset by (try apply truthy_nonempty; assumption).
    injection Hset as <- _. now split. }
  assert (Js.trim value = "" \/ Js.pin_regex (Js.trim value) = true) as Hok.
  { apply andb_false_iff in Hbad as [Ht%truthy_false|Hre%negb_false_iff];
      auto. }
  rewrite (setPin_stores n value r c Hok) in Hset. injection Hset as <- _.
  split; simpl; try assumption.
  - intros m [pin Hpin]. destruct (decide (n = m)) as [<-|Hne];
      [assumption|]. rewrite lookup_insert_ne in Hpin by assumption. eauto.
  - intros m pin Hpin. destruct (decide (n = m)) as [<-|Hne].
    + rewrite lookup_insert_eq in Hpin. injection Hpin as <-. exact Hok.
    + rewrite lookup_insert_ne in Hpin by assumption. eauto.
Qed.

Lemma wf_completeLoad i w k a b r :
  well_formed r -> well_formed (commit (completeLoad i w k a b true r) r).
Proof.
  intros [Hh Hn Hr Hf Hp]. rewrite completeLoad_commit.
  split; try assumption.
  - exact (recordCompletion_length i w k a b r).
  - apply (partitioned_ext _ (advance r)); [reflexivity| |].
    + simpl. now rewrite advance_paused.
    + now apply advance_partitioned.
Qed.

Lemma wf_resetCredits r c us c' :
  resetCredits r c = (Returned us, c') ->
  well_formed r -> well_formed (commit us r).
Proof.
  unfold resetCredits, bind, ret, confirm.
  destruct (replies c (asked c)); simpl;
    intros [= <- _] [Hh Hn Hr Hf Hp]; now split.
Qed.

Lemma step_well_formed r r' : step r r' -> well_formed r -> well_formed r'.
Proof.
  intros Hstep Hwf. destruct Hstep as
    [r value|r name Hin|r idx q Hidx Hre|r idx q Hidx Hre
    |r n value c us c' Hin Hset|r i w k c us c' Hrec
    |r i w k name action c us c' Hin Hclaim|r c us c' Hreset].
  - now apply wf_setRoster.
  - now apply wf_toggle.
  - apply (wf_click idx (idx - 1) r q); try assumption.
    now replace (Z.of_nat (idx - 1)) with (Z.max 0 (Z.of_nat idx - 1)) by lia.
  - apply (wf_click idx (Nat.min (length (activeQueue r) - 1) (idx + 1)) r q);
      try assumption.
    now replace (Z.of_nat (Nat.min (length (activeQueue r) - 1) (idx + 1)))
      with (Z.min (Z.of_nat (length (activeQueue r)) - 1) (Z.of_nat idx + 1))
      by lia.
  - eapply wf_setPin; eassumption.
  - destruct (handleComplete_cases _ _ _ _ _ _ _ Hrec)
      as [->|(a & b & _ & _ & ->)]; [assumption|]. now apply wf_completeLoad.
  - destruct (quickClaim_cases _ _ _ _ _ _ _ _ _ (wf_names _ Hwf _ Hin) Hclaim)
      as [->|(a & b & _ & _ & ->)]; [assumption|]. now apply wf_completeLoad.
  - eapply wf_resetCredits; eassumption.
Qed.

(** Every state a fresh installation reaches satisfies the data model. *)
Lemma reachable_well_formed s : reachable s -> well_formed s.
Proof.
  unfold reachable. intros Hrtc.
  assert (well_formed mounted) as H0 by apply wf_settle, wf_default.
  induction Hrtc as [|x y z Hstep _ IH]; [assumption|].
  apply IH. now apply (step_well_formed x).
Qed.

(** In a well-formed state the stored PIN is what the gate compares with. *)
Lemma wf_stored_trimmed s name stored :
  well_formed s -> storedPin s name = Returned stored ->
  Js.trim stored = stored.
Proof.
  intros Hwf. unfold storedPin, get.
  destruct (pins s !! name) as [[text|key]|] eqn:Hn.
  - intros [= <-].
    destruct (wf_pins_format _ Hwf _ _ Hn) as [->|Hre];
      [reflexivity|now apply trim_pin].
  - discriminate.
  - destruct (Js.inherited name); [discriminate|]. now intros [= <-].
Qed.

Lemma wf_no_pin_outside_roster s name :
  well_formed s -> ~ In name (roommates s) -> pins s !! name = None.
Proof.
  intros Hwf Hout. destruct (pins s !! name) eqn:Hn; [|reflexivity].
  exfalso. apply Hout, (wf_pins_roster _ Hwf). eauto.
Qed.


End Invariants.

(** ** The ledger across actions *)

Section LedgerInvariant.




Lemma sound_addHalf n v : sound n v -> sound n (addHalf v).
Proof.
  intros [[k ->]|[Hn Hv]].
  - left. now exists (S k).
  - right. split; [assumption|]. destruct v; [now destruct (Hv q)|..];
      discriminate.
Qed.

Lemma sound_read c n :
  (forall v, c !! n = Some v -> sound n v) -> sound n (readCredit c n).
Proof.
  intros Hc. unfold readCredit, get.
  destruct (c !! n) as [v|]; [now apply Hc|].
  destruct (Js.inherited n) eqn:Hn.
  - right. split; [exact Hn|discriminate].
  - left. now exists 0%nat.
Qed.

Lemma lookup_assign {V} (o : gmap string V) m v n :
  assign m v o !! n = o !! n \/ (m = n /\ assign m v o !! n = Some v).
Proof.
  destruct (decide (m = n)) as [->|Hne];
    [|left; now apply lookup_assign_ne].
  unfold assign. destruct (o !! n) eqn:Hn.
  - right. split; [reflexivity|apply lookup_insert_eq].
  - destruct (String.eqb n "__proto__"); [now left|].
    right. split; [reflexivity|apply lookup_insert_eq].
Qed.

Lemma readCredit_assign_eq c n v :
  readCredit (assign n v c) n = v \/
  readCredit (assign n v c) n = readCredit c n.
Proof.
  unfold assign. destruct (c !! n) eqn:Hn.
  - left. apply readCredit_own, lookup_insert_eq.
  - destruct (String.eqb n "__proto__"); [now right|].
    left. apply readCredit_own, lookup_insert_eq.
Qed.

(** What [addCredits] leaves under a name. *)
Lemma recordCompletion_lookup i w k a b s n :
  let before := readCredit (credits s) n in
  let after := credits (recordCompletion i w k a b s) !! n in
  after = credits s !! n \/ after = Some (addHalf before) \/
  after = Some (addHalf (addHalf before)).
Proof.
  unfold recordCompletion, addCredits, commit. cbn [fold_left credits].
  set (c0 := credits s).
  set (c1 := if Js.truthy a then assign a (addHalf (readCredit c0 a)) c0
             else c0).
  assert (c1 !! n = c0 !! n /\ readCredit c1 n = readCredit c0 n \/
          c1 !! n = Some (addHalf (readCredit c0 n)) /\
          readCredit c1 n = addHalf (readCredit c0 n)) as H1.
  { subst c1. destruct (Js.truthy a); [|now left].
    destruct (decide (a = n)) as [->|Hne].
    - destruct (lookup_assign c0 n (addHalf (readCredit c0 n)) n)
        as [H|[_ H]].
      + left. split; [assumption|]. now apply readCredit_ext.
      + right. split; [assumption|]. now apply readCredit_own.
    - left. split; [now apply lookup_assign_ne|].
      now apply readCredit_assign_ne. }
  destruct (Js.truthy b).
  - destruct (lookup_assign c1 b (addHalf (readCredit c1 b)) n)
      as [H|[-> H]]; rewrite H.
    + destruct H1 as [[-> _]|[-> _]]; auto.
    + destruct H1 as [[_ ->]|[_ ->]]; auto.
  - destruct H1 as [[-> _]|[-> _]]; auto.
Qed.

Lemma ledger_ok_record i w k a b s q :
  ledger_ok s -> ledger_ok (with_queue q (recordCompletion i w k a b s)).
Proof.
  intros [Hkeys Hvals]. split; cbn [with_queue roommates credits pins].
  - intros n Hn. destruct (Hkeys n Hn) as [Hc Hp]. split; [|exact Hp].
    rewrite get_Missing_iff in *.
    destruct (recordCompletion_lookup i w k a b s n) as [H|[H|H]];
      rewrite H; [assumption|intros [? _]; discriminate..].
  - intros n v Hv.
    assert (sound n (readCredit (credits s) n)) as Hread
      by (apply sound_read; intros v0; apply Hvals).
    destruct (recordCompletion_lookup i w k a b s n) as [H|[H|H]];
      rewrite H in Hv.
    + now apply Hvals.
    + injection Hv as <-. now apply sound_addHalf.
    + injection Hv as <-. now do 2 apply sound_addHalf.
Qed.

Lemma ledger_ok_setRoster value s : ledger_ok s -> ledger_ok (setRoster value s).
Proof.
  intros Hok. destruct (decide (parseNames value = [])) as [Hnil|Hne].
  { unfold setRoster, setRoommatesFromInput. now rewrite decide_True. }
  destruct Hok as [Hkeys Hvals]. rewrite setRoster_eq by assumption.
  split; cbn [roommates credits pins].
  - intros n Hn.
    rewrite (get_own _ _ _
      (reduce_lookup_in (fun n => readCredit (credits s) n) _ _ _ Hn)).
    rewrite (get_own _ _ _
      (reduce_lookup_in (fun n => readPin (pins s) n) _ _ _ Hn)).
    split; discriminate.
  - intros n v Hv.
    destruct (in_dec string_dec n (parseNames value)) as [Hin|Hout].
    + rewrite (reduce_lookup_in (fun n => readCredit (credits s) n))
        in Hv by assumption.
      injection Hv as <-. apply sound_read. intros v0. apply Hvals.
    + now rewrite reduce_lookup_out, lookup_empty in Hv.
Qed.

Lemma ledger_ok_mounted : ledger_ok mounted.
Proof.
  split.
  - intros n Hn. now apply settle_reads.
  - intros n v. unfold mounted. rewrite settle_credits.
    change (credits defaultState) with (∅ : gmap string credit).
    rewrite lookup_empty.
    destruct (in_dec string_dec n (roommates defaultState)); [|discriminate].
    destruct (Js.inherited n); [discriminate|].
    intros [= <-]. left. now exists 0%nat.
Qed.

Lemma step_ledger_ok r r' : step r r' -> ledger_ok r -> ledger_ok r'.
Proof.
  intros Hstep Hok. destruct Hstep as
    [r value|r name Hin|r idx q Hidx Hre|r idx q Hidx Hre
    |r n value c us c' Hin Hset|r i w k c us c' Hrec
    |r i w k name action c us c' Hin Hclaim|r c us c' Hreset].
  - now apply ledger_ok_setRoster.
  - exact Hok.
  - exact Hok.
  - exact Hok.
  - unfold setPin, bind, ret, alert in Hset.
    destruct (Js.truthy _ && negb _); injection Hset as <- _; [exact Hok|].
    destruct Hok as [Hkeys Hvals]. split; [|exact Hvals].
    intros m Hm. destruct (Hkeys m Hm) as [Hc Hp].
    split; [exact Hc|]. cbn.
    destruct (decide (n = m)) as [->|Hne].
    + now rewrite get_insert_eq.
    + now rewrite get_insert_ne.
  - destruct (handleComplete_cases _ _ _ _ _ _ _ Hrec)
      as [->|(a & b & _ & _ & ->)]; [exact Hok|].
    rewrite completeLoad_commit. now apply ledger_ok_record.
  - rewrite quickClaim_eq in Hclaim.
    destruct (requirePinFor name r c) as [[[]|e] c1];
      [injection Hclaim as <- _|injection Hclaim as <- _; exact Hok
      |discriminate].
    rewrite completeLoad_commit. now apply ledger_ok_record.
  - unfold resetCredits, bind, ret, confirm in Hreset.
    destruct (replies c (asked c)); simpl in Hreset;
      injection Hreset as <- _; [exact Hok|].
    destruct Hok as [Hkeys Hvals]. split; cbn.
    + intros m Hm. destruct (Hkeys m Hm) as [Hc Hp]. split; [|exact Hp].
      rewrite get_Missing_iff in *. rewrite lookup_fmap.
      destruct (credits r !! m); [intros [? _]; discriminate|assumption].
    + intros m v. rewrite lookup_fmap.
      destruct (credits r !! m); [|discriminate]. intros [= <-].
      left. now exists 0%nat.
Qed.

Lemma reachable_ledger_ok s : reachable s -> ledger_ok s.
Proof.
  unfold reachable. intros Hrtc.
  pose proof ledger_ok_mounted as H0.
  induction Hrtc as [|x y z Hstep _ IH]; [assumption|].
  apply IH. now apply (step_ledger_ok x).
Qed.

(** In a reachable state a key that finds no member of [Object.prototype]
    reads as a number. *)
Lemma reachable_reads_number s n :
  reachable s -> Js.inherited n = false ->
  exists k, readCredit (credits s) n = Num (halves k).
Proof.
  intros [_ Hvals]%reachable_ledger_ok Hn.
  destruct (sound_read (credits s) n) as [Hnum|[Hin _]];
    [intros v Hv; now apply Hvals|assumption|congruence].
Qed.

End LedgerInvariant.

(** ** The application at work *)

(** No PIN is set and "A" heads the queue; "A" ran the 3 PM load and "B"
    unloaded it. *)
Example complete_load_example :
  let s := fst (dispatch (handleComplete "k1" "t1" K3pm) mounted
                  (scripted [Ok "A"; Ok "B"])) in
  queue s = ["B"; "C"; "D"; "A"] /\
  history s = [entry_of "k1" "t1" K3pm "A" "B"] /\
  credits s !! "A" = Some (Num half) /\
  credits s !! "B" = Some (Num half) /\
  credits s !! "C" = Some (Num 0%Qc) /\ credits s !! "D" = Some (Num 0%Qc).
Proof.
  vm_compute. repeat split; do 2 f_equal; apply Qc_is_canon; reflexivity.
Qed.

(** Pausing "B" takes it out of the rotation; unpausing puts it back behind
    the active names. *)
Example pause_example :
  activeQueue (toggle "B" mounted) = ["A"; "C"; "D"] /\
  current (toggle "B" mounted) = Some "A" /\
  next (toggle "B" mounted) = Some "C" /\
  queue (toggle "B" (toggle "B" mounted)) = ["A"; "C"; "D"; "B"].
Proof. repeat split. Qed.

(** A quick claim "I unloaded" credits the head of the queue with the run. *)
Example quick_unload_example :
  let s := fst (dispatch (quickClaim "k2" "t2" KNight "C" Unload) mounted
                  (scripted [])) in
  history s = [entry_of "k2" "t2" KNight "A" "C"] /\
  queue s = ["B"; "C"; "D"; "A"].
Proof. repeat split. Qed.

(** ** The properties of the specification *)

(** C1.  When the PIN check of [handleComplete] fails, for the runner or,
    after the runner passed, for the unloader, the handler shows "Incorrect
    PIN." and returns without calling [setState]: the state, with its
    credits, queue and history, is the one before the attempt. *)
Theorem handleComplete_denied (i w : string) (k : load_kind) (r : state)
    (c : console) :
  let runBy := claimed c (defaultName r) in
  let gate1 := requirePinFor runBy r (answered c) in
  let unloadBy := claimed (snd gate1) runBy in
  let gate2 := requirePinFor unloadBy r (answered (snd gate1)) in
  runBy <> "" ->
  fst gate1 = Returned false \/
  (fst gate1 = Returned true /\ fst gate2 = Returned false) ->
  exists c',
    handleComplete i w k r c = (Returned [], alerted IncorrectPin c') /\
    dispatch (handleComplete i w k) r c = (r, alerted IncorrectPin c') /\
    c' = (match fst gate1 with
          | Returned true => answered (answered (snd gate1))
          | _ => answered (answered c)
          end).
Proof.
  intros runBy gate1 unloadBy gate2 Hne [Hfail|[Hpass Hfail]].
  - exists (answered (answered c)). unfold dispatch.
    rewrite (handleComplete_runner_denied i w k r c Hne Hfail).
    fold runBy gate1. now rewrite Hfail.
  - exists (answered (answered (snd gate1))). unfold dispatch.
    rewrite (handleComplete_unloader_denied i w k r c Hne Hpass Hfail).
    now rewrite Hpass.
Qed.

Lemma handleComplete_denied_witness :
  dispatch (handleComplete "i" "t" K3pm) stateA1234
    (scripted [Ok "A"; Ok "0000"])
  = (stateA1234,
     alerted IncorrectPin (answered (answered (scripted [Ok "A"; Ok "0000"])))) /\
  fst (dispatch (handleComplete "i" "t" KNight) stateA1234
         (scripted [Ok "B"; Ok " A"; Cancel]))
  = stateA1234.
Proof.
  split.
  - destruct (handleComplete_denied "i" "t" K3pm stateA1234
                (scripted [Ok "A"; Ok "0000"]) ltac:(discriminate)
                (or_introl eq_refl)) as (c' & _ & -> & ->).
    reflexivity.
  - destruct (handleComplete_denied "i" "t" KNight stateA1234
                (scripted [Ok "B"; Ok " A"; Cancel]) ltac:(discriminate)
                (or_intror (conj eq_refl eq_refl))) as (c' & _ & -> & _).
    reflexivity.
Defined.

(** C2.  [requirePinFor] ([authorize]) reads [pins[name]] from a plain
    object.  Where that gives a string or nothing of its own, the gate does
    what C2 says: with an empty stored PIN (also one of white space only) it
    lets every caller through without asking; otherwise it asks for the
    secret and answers true exactly when the trimmed secret equals the
    trimmed stored PIN, which is the stored PIN in every state the
    application reaches, and it shows "Incorrect PIN." and answers false on
    any other secret and on Cancel.  But for a name that [Object.prototype]
    has as a member and that has no PIN of its own, the read gives that
    member, [.trim] of it is [undefined], and the gate throws a [TypeError]
    instead of returning true: so for "constructor" in a fresh
    installation. *)
Theorem requirePinFor_authorizes (name : string) (r : state) (c : console) :
  (forall stored,
     storedPin r name = Returned stored -> Js.trim stored = "" ->
     requirePinFor name r c = (Returned true, c)) /\
  (forall stored,
     storedPin r name = Returned stored -> Js.trim stored <> "" ->
     (forall s, replies c (asked c) = Ok s ->
        (fst (requirePinFor name r c) = Returned true
           <-> Js.trim s = Js.trim stored) /\
        (fst (requirePinFor name r c) = Returned false
           <-> Js.trim s <> Js.trim stored) /\
        snd (requirePinFor name r c) =
          (if decide (Js.trim s = Js.trim stored) then answered c
           else alerted IncorrectPin (answered c))) /\
     (replies c (asked c) = Cancel ->
        requirePinFor name r c
        = (Returned false, alerted IncorrectPin (answered c)))) /\
  (reachable r ->
   forall stored, storedPin r name = Returned stored ->
                  Js.trim stored = stored) /\
  (pins r !! name = None -> Js.inherited name = false ->
     storedPin r name = Returned "") /\
  (forall text, pins r !! name = Some (Pin text) ->
     storedPin r name = Returned text) /\
  (pins r !! name = None -> Js.inherited name = true ->
     storedPin r name = Threw TypeError /\
     requirePinFor name r c = (Threw TypeError, c)) /\
  (forall key, pins r !! name = Some (PinMember key) ->
     requirePinFor name r c = (Threw TypeError, c)) /\
  (pins mounted !! "constructor" = None /\
   requirePinFor "constructor" mounted c = (Threw TypeError, c)).
Proof.
  split; [intros stored; apply requirePinFor_open|].
  split.
  { intros stored Hstored Hne. split.
    - intros s Hs.
      rewrite (requirePinFor_asked name r c stored Hstored Hne).
      unfold replyText. rewrite Hs. cbn [fmap option_fmap option_map].
      destruct (decide (Some (Js.trim s) = Some (Js.trim stored)))
        as [He|He];
        destruct (decide (Js.trim s = Js.trim stored)) as [He'|He'];
        try congruence; cbn [fst snd];
        (split; [|split; [|reflexivity]]); split; congruence.
    - intros Hcancel. now apply (requirePinFor_cancelled name r c stored). }
  split.
  { intros Hreach stored. now apply wf_stored_trimmed, reachable_well_formed. }
  split; [apply storedPin_missing|].
  split; [intros text; apply storedPin_own|].
  split.
  { intros Hnone Hin.
    pose proof (storedPin_inherited name r Hnone Hin) as Hthrow.
    split; [assumption|now apply requirePinFor_throws]. }
  split.
  { intros key Hkey.
    now apply requirePinFor_throws, (storedPin_member _ _ key). }
  split; [reflexivity|]. now apply requirePinFor_throws.
Qed.

Lemma requirePinFor_authorizes_witness :
  requirePinFor "B" stateA1234 (scripted [Ok "0000"])
    = (Returned true, scripted [Ok "0000"]) /\
  (fst (requirePinFor "A" stateA1234 (scripted [Ok " 1234 "])) = Returned true
     <-> Js.trim " 1234 " = Js.trim "1234") /\
  (fst (requirePinFor "A" stateA1234 (scripted [Ok "0000"])) = Returned false
     <-> Js.trim "0000" <> Js.trim "1234") /\
  requirePinFor "A" stateA1234 (scripted [])
    = (Returned false, alerted IncorrectPin (answered (scripted []))) /\
  requirePinFor "toString" stateA1234 (scripted [Ok "0000"])
    = (Threw TypeError, scripted [Ok "0000"]).
Proof.
  pose proof (requirePinFor_authorizes "B" stateA1234 (scripted [Ok "0000"]))
    as (HB & _).
  pose proof (requirePinFor_authorizes "A" stateA1234 (scripted [Ok " 1234 "]))
    as (_ & Hgood & _).
  pose proof (requirePinFor_authorizes "A" stateA1234 (scripted [Ok "0000"]))
    as (_ & Hbad & _).
  pose proof (requirePinFor_authorizes "A" stateA1234 (scripted []))
    as (_ & Hcancel & _).
  pose proof (requirePinFor_authorizes "toString" stateA1234
                (scripted [Ok "0000"]))
    as (_ & _ & _ & _ & _ & Hthrow & _).
  split; [|split; [|split; [|split]]].
  - apply (HB "" eq_refl eq_refl).
  - apply (proj1 (Hgood "1234" eq_refl ltac:(discriminate)) " 1234 " eq_refl).
  - apply (proj1 (Hbad "1234" eq_refl ltac:(discriminate)) "0000" eq_refl).
  - apply (proj2 (Hcancel "1234" eq_refl ltac:(discriminate)) eq_refl).
  - apply (proj2 (Hthrow eq_refl eq_refl)).
Defined.






(** C5.  [advanceQueue] rotates the active names left by one (the head moves
    to the tail) and puts the paused names, unchanged, behind them; with no
    active name it does nothing.  So with [n] active names, [n] calls bring
    the active names back to their original order and a queue that was active
    names followed by paused names, as it is in every state the application
    reaches, to its original value; when no name is repeated, no smaller
    positive number of calls does. *)
Theorem advance_rotates (s : state) :
  let n := length (activeQueue s) in
  activeQueue (advance s) = rotate_left1 (activeQueue s) /\
  pausedList (advance s) = pausedList s /\
  (activeQueue s <> [] ->
     queue (advance s) = rotate_left1 (activeQueue s) ++ pausedList s) /\
  (activeQueue s = [] -> advanceQueue s = [] /\ advance s = s) /\
  activeQueue (Nat.iter n advance s) = activeQueue s /\
  pausedList (Nat.iter n advance s) = pausedList s /\
  (partitioned s -> Nat.iter n advance s = s) /\
  (reachable s -> Nat.iter n advance s = s) /\
  (List.NoDup (activeQueue s) -> forall k, (0 < k < n)%nat ->
     activeQueue (Nat.iter k advance s) <> activeQueue s).
Proof.
  intros n. subst n.
  split; [apply advance_active|].
  split; [apply advance_pausedList|].
  split; [apply advance_queue|].
  split.
  { intros Ha. unfold advance, advanceQueue. now rewrite Ha. }
  split; [now rewrite iter_advance_active, iter_rotate_left1_full|].
  split; [apply iter_advance_pausedList|].
  assert (partitioned s -> Nat.iter (length (activeQueue s)) advance s = s)
    as Hback.
  { intros Hp. rewrite iter_advance_rest.
    rewrite (iter_advance_partitioned _ _ Hp).
    rewrite iter_advance_active, iter_rotate_left1_full, iter_advance_pausedList.
    rewrite <- Hp. now destruct s. }
  split; [assumption|].
  split.
  - intros Hreach. now apply Hback, wf_partitioned, reachable_well_formed.
  - intros Hnd k Hk. rewrite iter_advance_active.
    now apply iter_rotate_left1_proper.
Qed.

Lemma advance_rotates_witness :
  Nat.iter 3 advance (toggle "B" mounted) = toggle "B" mounted /\
  activeQueue (Nat.iter 2 advance (toggle "B" mounted))
    <> activeQueue (toggle "B" mounted) /\
  queue (advance (toggle "B" mounted)) = ["C"; "D"; "A"; "B"].
Proof.
  split; [|split].
  - apply (proj1 (proj2 (proj2 (proj2 (proj2 (proj2 (proj2
             (advance_rotates (toggle "B" mounted))))))))).
    reflexivity.
  - apply (proj2 (proj2 (proj2 (proj2 (proj2 (proj2 (proj2 (proj2
             (advance_rotates (toggle "B" mounted)))))))))).
    + vm_compute. repeat constructor; simpl; intuition discriminate.
    + vm_compute. lia.
  - apply (proj1 (proj2 (proj2 (advance_rotates (toggle "B" mounted))))).
    discriminate.
Defined.




(** C7.  After [addCredits] ([recordCompletion]) the new entry heads the
    log, and the log is the first 200 of the new entry followed by the old
    log: what is cut is a tail of the old log, its oldest entries.  So after
    any number of loads the log holds the newest 200 entries, newest first
    (after 201 loads on an empty log, all but the first load), and no state
    the application reaches has more than 200 entries. *)
Theorem history_capped (i w : string) (k : load_kind) (a b : string)
    (s : state) :
  let e := entry_of i w k a b in
  let s' := recordCompletion i w k a b s in
  history s' = take 200 (e :: history s) /\
  head (history s') = Some e /\
  (length (history s') <= 200)%nat /\
  (exists oldest, e :: history s = history s' ++ oldest) /\
  (forall c cs,
     history (recordAll (c :: cs) s)
     = take 200 (rev (map entry_for (c :: cs)) ++ history s)) /\
  (forall cs, length cs = 201%nat -> history s = [] ->
     history (recordAll cs s) = rev (map entry_for (tail cs))) /\
  (forall t, reachable t -> (length (history t) <= 200)%nat).
Proof.
  intros e s'. subst e s'.
  split; [reflexivity|]. split; [reflexivity|].
  split; [apply recordCompletion_length|].
  split.
  { exists (drop 200 (entry_of i w k a b :: history s)).
    rewrite recordCompletion_history. symmetry. apply take_drop. }
  split; [intros c cs; apply recordAll_history|].
  split.
  - intros [|c cs] Hlen Hs; [discriminate|].
    rewrite recordAll_history, Hs, app_nil_r. cbn [tail map rev].
    rewrite take_app_length'; [reflexivity|].
    rewrite length_rev, length_map. simpl in Hlen. lia.
  - intros t Ht. now apply reachable_well_formed.
Qed.

Lemma history_capped_witness :
  history (recordAll loads201 mounted) = rev (map entry_for (tail loads201)) /\
  (length (history mounted) <= 200)%nat.
Proof.
  split.
  - apply (proj1 (proj2 (proj2 (proj2 (proj2 (proj2
      (history_capped "i" "t" K3pm "A" "B" mounted))))))); reflexivity.
  - apply (proj2 (proj2 (proj2 (proj2 (proj2 (proj2
      (history_capped "i" "t" K3pm "A" "B" mounted))))))).
    apply rtc_refl.
Defined.

(** C8.  [setPin] trims the candidate.  A trimmed candidate that is not empty
    and is not 4 to 8 digits ("123", say) is refused with the alert "PIN must
    be 4–8 digits." and nothing is set; one of 4 to 8 digits ("12345") is
    stored under the name; an empty one is stored too, which clears the PIN:
    the gate then lets the name through. *)
Theorem setPin_validates (name candidate : string) (r : state) (c : console) :
  let pin := Js.trim candidate in
  (pin <> "" -> Js.pin_regex pin = false ->
     setPin name candidate r c = (Returned [], alerted PinMustBeDigits c) /\
     dispatch (setPin name candidate) r c = (r, alerted PinMustBeDigits c)) /\
  (pin = "" \/ Js.pin_regex pin = true ->
     snd (dispatch (setPin name candidate) r c) = c /\
     let s' := fst (dispatch (setPin name candidate) r c) in
     pins s' = <[name := Pin pin]> (pins r) /\
     roommates s' = roommates r /\ queue s' = queue r /\
     paused s' = paused r /\ credits s' = credits r /\
     history s' = history r) /\
  (pin = "" ->
     forall c', requirePinFor name (fst (dispatch (setPin name candidate) r c)) c'
                = (Returned true, c')) /\
  dispatch (setPin name "123") r c = (r, alerted PinMustBeDigits c) /\
  pins (fst (dispatch (setPin name "12345") r c))
  = <[name := Pin "12345"]> (pins r).
Proof.
  intros pin. subst pin.
  split; [|split; [|split; [|split]]].
  - intros Hne Hre. unfold dispatch. now rewrite setPin_rejects.
  - intros Hok. unfold dispatch. rewrite setPin_stores by assumption.
    simpl. repeat split.
  - intros Hempty c'. apply requirePinFor_no_pin.
    unfold dispatch. rewrite setPin_stores by now left.
    rewrite <- Hempty. apply storedPin_own. simpl. apply lookup_insert_eq.
  - unfold dispatch. now rewrite setPin_rejects.
  - unfold dispatch. now rewrite setPin_stores by now right.
Qed.

Lemma setPin_validates_witness :
  dispatch (setPin "A" " 12a4 ") mounted (scripted [])
    = (mounted, alerted PinMustBeDigits (scripted [])) /\
  pins (fst (dispatch (setPin "A" " 87654321 ") mounted (scripted []))) !! "A"
    = Some (Pin "87654321") /\
  requirePinFor "A" (fst (dispatch (setPin "A" "  ") stateA1234 (scripted [])))
    (scripted [Ok "0000"]) = (Returned true, scripted [Ok "0000"]).
Proof.
  split; [|split].
  - apply (proj1 (setPin_validates "A" " 12a4 " mounted (scripted [])));
      [discriminate | reflexivity].
  - destruct (proj1 (proj2 (setPin_validates "A" " 87654321 " mounted (scripted [])))
                (or_intror eq_refl)) as (_ & -> & _).
    apply lookup_insert_eq.
  - apply (proj1 (proj2 (proj2
             (setPin_validates "A" "  " stateA1234 (scripted [])))) eq_refl).
Defined.




(** C10.  In every state the application reaches, a name outside the roster
    has no entry of its own in [pins].  Where such a name is no member of
    [Object.prototype], the gate lets it pass whatever the user would type
    (it does not even ask), as C10 says: when the user names such a person
    as runner, and as unloader leaves the field blank, repeats the name or
    names somebody else without a PIN, [handleComplete] asks for no PIN and
    records the load; the ledger gets 0.5 for the name as runner (and 0.5
    more as unloader), on a fresh entry if it had none, and the history
    starts with an entry that names it; the roster and the PINs are not
    changed.  But for a name that [Object.prototype] has as a member, such
    as "constructor", the gate reads that member as the PIN and throws a
    [TypeError]: [handleComplete] stops at the runner's gate, and neither a
    credit entry nor a history record is made. *)
Theorem outsider_completion (i w : string) (k : load_kind) (r : state)
    (c : console) (name : string) :
  (pins r !! name = None -> Js.inherited name = false ->
     forall c', requirePinFor name r c' = (Returned true, c')) /\
  (reachable r -> ~ In name (roommates r) -> pins r !! name = None) /\
  (reachable r -> Js.inherited name = false ->
     exists j, readCredit (credits r) name = Num (halves j)) /\
  (pins r !! name = None -> Js.inherited name = false ->
   name <> "" ->
   claimed c (defaultName r) = name ->
   let unloader := claimed (answered c) name in
   storedPin r unloader = Returned "" ->
   forall q, readCredit (credits r) name = Num q ->
   let s' := fst (dispatch (handleComplete i w k) r c) in
   handleComplete i w k r c
     = (Returned (completeLoad i w k name unloader true r),
        answered (answered c)) /\
   credits s' !! name
     = Some (Num (q + (if decide (unloader = name) then 1 else half))%Qc) /\
   (credits r !! name = None -> q = 0%Qc /\ is_Some (credits s' !! name)) /\
   head (history s') = Some (entry_of i w k name unloader) /\
   roommates s' = roommates r /\ pins s' = pins r) /\
  (pins r !! name = None -> Js.inherited name = true ->
   name <> "" ->
   claimed c (defaultName r) = name ->
   requirePinFor name r (answered c) = (Threw TypeError, answered c) /\
   handleComplete i w k r c = (Threw TypeError, answered c) /\
   dispatch (handleComplete i w k) r c = (r, answered c)) /\
  (~ In "constructor" (roommates mounted) /\
   dispatch (handleComplete i w k) mounted (scripted [Ok "constructor"])
   = (mounted, answered (scripted [Ok "constructor"]))).
Proof.
  split.
  { intros Hnone Hin c'.
    now apply requirePinFor_no_pin, storedPin_missing. }
  split.
  { intros Hreach. now apply wf_no_pin_outside_roster, reachable_well_formed. }
  split; [apply reachable_reads_number|].
  split.
  { intros Hnone Hin Hne Hrun unloader Hunloader q Hq s'.
    assert (unloader <> "") as Hne' by now apply claimed_nonempty.
    assert (handleComplete i w k r c
            = (Returned (completeLoad i w k name unloader true r),
               answered (answered c)))
      as Heq.
    { apply handleComplete_allowed; auto. now apply storedPin_missing. }
    assert (s' = with_queue (queue (advance r))
                   (recordCompletion i w k name unloader r)) as ->.
    { subst s'. unfold dispatch. rewrite Heq. apply completeLoad_commit. }
    cbn [with_queue credits history roommates pins].
    assert (credits (recordCompletion i w k name unloader r) !! name
            = Some (Num (q + (if decide (unloader = name) then 1 else half))%Qc))
      as Hcredit.
    { destruct (decide (unloader = name)) as [->|Hdiff].
      - now apply recordCompletion_both.
      - apply recordCompletion_run; congruence. }
    split; [assumption|]. split; [assumption|].
    split.
    { intros Hc. rewrite (readCredit_missing _ _ Hc Hin) in Hq.
      injection Hq as <-. split; [reflexivity|]. rewrite Hcredit. eauto. }
    now repeat split. }
  assert (forall r0 c0 n,
            pins r0 !! n = None -> Js.inherited n = true -> n <> "" ->
            claimed c0 (defaultName r0) = n ->
            requirePinFor n r0 (answered c0) = (Threw TypeError, answered c0) /\
            handleComplete i w k r0 c0 = (Threw TypeError, answered c0) /\
            dispatch (handleComplete i w k) r0 c0 = (r0, answered c0))
    as Hthrows.
  { intros r0 c0 n Hnone Hin Hne Hrun.
    pose proof (storedPin_inherited n r0 Hnone Hin) as Hpin.
    assert (handleComplete i w k r0 c0 = (Threw TypeError, answered c0))
      as Heq.
    { apply handleComplete_runner_throws; now rewrite Hrun. }
    split; [now apply requirePinFor_throws|].
    split; [assumption|]. unfold dispatch. now rewrite Heq. }
  split; [apply Hthrows|].
  split.
  { vm_compute. intuition discriminate. }
  apply (Hthrows mounted (scripted [Ok "constructor"]) "constructor");
    [reflexivity|reflexivity|discriminate|reflexivity].
Qed.

Lemma outsider_completion_witness :
  ~ In "Mallory" (roommates stateA1234) /\
  handleComplete "i" "t" KNight stateA1234 (scripted [Ok " Mallory "])
  = (Returned (completeLoad "i" "t" KNight "Mallory" "Mallory" true stateA1234),
     answered (answered (scripted [Ok " Mallory "]))) /\
  credits (fst (dispatch (handleComplete "i" "t" KNight) stateA1234
                  (scripted [Ok " Mallory "]))) !! "Mallory"
  = Some (Num (0 + 1)%Qc) /\
  dispatch (handleComplete "i" "t" KNight) stateA1234
    (scripted [Ok " hasOwnProperty "])
  = (stateA1234, answered (scripted [Ok " hasOwnProperty "])).
Proof.
  assert (~ In "Mallory" (roommates stateA1234)) as Hout
    by (vm_compute; intuition discriminate).
  assert (~ In "hasOwnProperty" (roommates stateA1234)) as Hout'
    by (vm_compute; intuition discriminate).
  assert (reachable stateA1234) as Hreach.
  { eapply rtc_l; [|apply rtc_refl].
    apply (step_pin mounted "A" "1234" (scripted [])
             [fun s =>
                {| roommates := roommates s; queue := queue s;
                   paused := paused s; credits := credits s;
                   history := history s;
                   pins := <["A" := Pin "1234"]> (pins s) |}]
             (scripted []));
      [vm_compute; left; reflexivity|reflexivity]. }
  pose proof (outsider_completion "i" "t" KNight stateA1234
                (scripted [Ok " Mallory "]) "Mallory")
    as (_ & Hnone & _ & Hrec & _).
  pose proof (outsider_completion "i" "t" KNight stateA1234
                (scripted [Ok " hasOwnProperty "]) "hasOwnProperty")
    as (_ & Hnone' & _ & _ & Hthrow & _).
  specialize (Hnone Hreach Hout). specialize (Hnone' Hreach Hout').
  destruct (Hrec Hnone eq_refl ltac:(discriminate) eq_refl eq_refl
              0%Qc eq_refl)
    as (Heq & Hcredit & _).
  split; [assumption|]. split; [assumption|]. split; [exact Hcredit|].
  apply (Hthrow Hnone' eq_refl ltac:(discriminate) eq_refl).
Defined.

(** * Further properties of the component *)

(** ** Quick claims *)

(** X1.  A quick claim whose PIN check fails shows "Incorrect PIN." and
    returns without calling [setState]: nothing is credited, the queue does
    not move and the history is the same. *)
Theorem quickClaim_denied (i w : string) (k : load_kind) (name : string)
    (action : claim_action) (r : state) (c : console) :
  fst (requirePinFor name r c) = Returned false ->
  quickClaim i w k name action r c
    = (Returned [], alerted IncorrectPin (answered c)) /\
  dispatch (quickClaim i w k name action) r c
    = (r, alerted IncorrectPin (answered c)).
Proof.
  intros Hfail. unfold dispatch.
  rewrite quickClaim_eq, (requirePinFor_false r name c Hfail). now split.
Qed.

Lemma quickClaim_denied_witness :
  dispatch (quickClaim "i" "t" K3pm "A" Run) stateA1234 (scripted [Ok "4321"])
  = (stateA1234, alerted IncorrectPin (answered (scripted [Ok "4321"]))).
Proof.
  apply (proj2 (quickClaim_denied "i" "t" K3pm "A" Run stateA1234
                  (scripted [Ok "4321"]) eq_refl)).
Defined.

(** X2.  A quick claim "I ran" that passes the PIN check, after at most one
    dialog, records a load that the claimer both ran and unloaded: the
    claimer, whose credit read as the number [q], gains exactly 1 credit,
    the history starts with that entry, the queue advances by one, and no
    other credit changes. *)
Theorem quickClaim_run (i w : string) (k : load_kind) (name : string)
    (r : state) (c : console) (q : Qc) :
  name <> "" ->
  fst (requirePinFor name r c) = Returned true ->
  readCredit (credits r) name = Num q ->
  let s' := fst (dispatch (quickClaim i w k name Run) r c) in
  let c' := snd (dispatch (quickClaim i w k name Run) r c) in
  (c' = c \/ c' = answered c) /\
  credits s' !! name = Some (Num (q + 1)%Qc) /\
  (forall n, n <> name -> credits s' !! n = credits r !! n) /\
  head (history s') = Some (entry_of i w k name name) /\
  s' = advance (recordCompletion i w k name name r).
Proof.
  intros Hne Hpass Hq s' c'. subst s' c'. unfold dispatch.
  rewrite quickClaim_eq.
  destruct (requirePinFor_true name r c Hpass) as [-> | ->];
    cbn [fst snd]; rewrite completeLoad_advance, advance_rest;
    cbn [with_queue credits history];
    (split; [auto|]);
    (split; [now apply recordCompletion_both|]);
    (split; [intros n Hn; now apply recordCompletion_others|]);
    (split; [reflexivity|]); now rewrite <- advance_rest.
Qed.

Lemma quickClaim_run_witness :
  credits (fst (dispatch (quickClaim "i" "t" K3pm "A" Run) stateA1234
                  (scripted [Ok "1234"]))) !! "A"
  = Some (Num (0 + 1)%Qc).
Proof.
  apply (quickClaim_run "i" "t" K3pm "A" stateA1234 (scripted [Ok "1234"])
           0%Qc ltac:(discriminate) eq_refl eq_refl).
Defined.

(** X3.  A quick claim "I unloaded" checks the PIN of the claimer only.  When
    it passes, the run is credited to the head of the active queue (to the
    claimer when no name is active), whatever PIN the head has: with credits
    that read as numbers, the head gains 0.5 and the claimer 0.5 (1 when the
    claimer is the head), and the history entry names the head as runner. *)
Theorem quickClaim_unload (i w : string) (k : load_kind) (name : string)
    (r : state) (c : console) :
  name <> "" ->
  fst (requirePinFor name r c) = Returned true ->
  let runner := default name (current r) in
  let s' := fst (dispatch (quickClaim i w k name Unload) r c) in
  let c' := snd (dispatch (quickClaim i w k name Unload) r c) in
  (c' = c \/ c' = answered c) /\
  (forall qr qn,
     readCredit (credits r) runner = Num qr ->
     readCredit (credits r) name = Num qn ->
     runner <> name ->
     credits s' !! runner = Some (Num (qr + half)%Qc) /\
     credits s' !! name = Some (Num (qn + half)%Qc)) /\
  (forall qn,
     readCredit (credits r) name = Num qn ->
     runner = name ->
     credits s' !! name = Some (Num (qn + 1)%Qc)) /\
  (forall n, n <> runner -> n <> name -> credits s' !! n = credits r !! n) /\
  head (history s') = Some (entry_of i w k runner name) /\
  s' = advance (recordCompletion i w k runner name r).
Proof.
  intros Hne Hpass runner s' c'.
  assert (runner <> "") as Hrunner.
  { subst runner. destruct (current r) as [n|] eqn:Hn; [|assumption].
    now apply (current_nonempty r). }
  subst s' c'. unfold dispatch. rewrite quickClaim_eq. fold runner.
  destruct (requirePinFor_true name r c Hpass) as [-> | ->];
    cbn [fst snd]; rewrite completeLoad_advance, advance_rest;
    cbn [with_queue credits history];
    (split; [auto|]);
    (split; [intros qr qn Hqr Hqn Hdiff; split;
             [now apply recordCompletion_run
             |now apply recordCompletion_unload]|]);
    (split; [intros qn Hqn Hsame; rewrite Hsame;
             now apply recordCompletion_both|]);
    (split; [intros n Hn Hn'; now apply recordCompletion_others|]);
    (split; [reflexivity|]); now rewrite <- advance_rest.
Qed.

Lemma quickClaim_unload_witness :
  credits (fst (dispatch (quickClaim "i" "t" K3pm "C" Unload) stateA1234
                  (scripted []))) !! "A"
  = Some (Num (0 + half)%Qc) /\
  storedPin stateA1234 "A" = Returned "1234".
Proof.
  split; [|reflexivity].
  apply (proj1 (proj1 (proj2 (quickClaim_unload "i" "t" K3pm "C" stateA1234
                         (scripted []) ltac:(discriminate) eq_refl))
                 0%Qc 0%Qc eq_refl eq_refl ltac:(discriminate))).
Defined.

(** ** Resetting the credits *)

(** X4.  [resetCredits] asks for confirmation.  On Cancel it calls no
    [setState]; on OK every ledger entry becomes 0, with the same names as
    keys (also names that have left the roster), and nothing else changes. *)
Theorem resetCredits_resets (r : state) (c : console) :
  let s' := fst (dispatch resetCredits r c) in
  snd (dispatch resetCredits r c) = answered c /\
  (replies c (asked c) = Cancel ->
     resetCredits r c = (Returned [], answered c)) /\
  (replies c (asked c) <> Cancel ->
     (forall n, credits s' !! n = (fun _ => Num 0%Qc) <$> credits r !! n) /\
     dom (credits s') = dom (credits r) /\
     roommates s' = roommates r /\ queue s' = queue r /\
     paused s' = paused r /\ history s' = history r /\ pins s' = pins r).
Proof.
  intros s'. subst s'. unfold dispatch, resetCredits, bind, ret, confirm.
  fold (answered c).
  destruct (replies c (asked c)) as [|text]; simpl.
  - split; [reflexivity|]. split; [reflexivity|]. now intros [].
  - split; [reflexivity|]. split; [discriminate|]. intros _.
    split; [intros n; apply lookup_fmap|].
    split; [apply dom_fmap_L|]. now repeat split.
Qed.

Lemma resetCredits_resets_witness :
  credits (fst (dispatch resetCredits
                  (recordCompletion "i" "t" K3pm "A" "Zed" mounted)
                  (scripted [Ok ""]))) !! "Zed"
  = (fun _ => Num 0%Qc) <$>
      credits (recordCompletion "i" "t" K3pm "A" "Zed" mounted) !! "Zed" /\
  resetCredits mounted (scripted []) = (Returned [], answered (scripted [])).
Proof.
  split.
  - apply (proj1 (proj2 (proj2 (resetCredits_resets
             (recordCompletion "i" "t" K3pm "A" "Zed" mounted)
             (scripted [Ok ""]))) ltac:(discriminate))).
  - apply (proj1 (proj2 (resetCredits_resets mounted (scripted []))) eq_refl).
Defined.

(** ** The effect that completes the ledger and the PIN registry *)

(** X5.  After the effect has run, every roommate has a ledger entry and a
    PIN entry, unless [Object.prototype] has a member of that name: an entry
    that existed keeps its value, a missing one becomes 0 (the empty PIN),
    and names outside the roster get nothing; for a roommate named like a
    member of [Object.prototype] the effect reads that member and makes no
    entry.  The effect changes nothing else, enqueues nothing when no entry
    is missing, and so has nothing left to do after it ran. *)
Theorem ensureEntries_completes (s : state) :
  let s' := settle s in
  (forall n, In n (roommates s) -> Js.inherited n = false ->
     credits s' !! n = Some (default (Num 0%Qc) (credits s !! n)) /\
     pins s' !! n = Some (default (Pin "") (pins s !! n))) /\
  (forall n, In n (roommates s) -> Js.inherited n = true ->
     credits s' !! n = credits s !! n /\ pins s' !! n = pins s !! n) /\
  (forall n, ~ In n (roommates s) ->
     credits s' !! n = credits s !! n /\ pins s' !! n = pins s !! n) /\
  roommates s' = roommates s /\ queue s' = queue s /\
  paused s' = paused s /\ history s' = history s /\
  ((forall n, In n (roommates s) ->
      is_Some (credits s !! n) /\ is_Some (pins s !! n)) ->
   ensureEntries s = [] /\ s' = s) /\
  ensureEntries s' = [] /\ settle s' = s'.
Proof.
  intros s'. subst s'.
  assert (ensureEntries (settle s) = []) as Hdone.
  { apply ensureEntries_complete. intros n Hn.
    rewrite settle_roommates in Hn. now apply settle_reads. }
  split.
  { intros n Hn Hin. rewrite settle_credits, settle_pins, Hin.
    destruct (in_dec string_dec n (roommates s)); [|contradiction].
    now destruct (credits s !! n), (pins s !! n). }
  split.
  { intros n Hn Hin. rewrite settle_credits, settle_pins, Hin.
    destruct (in_dec string_dec n (roommates s)); [|contradiction].
    now destruct (credits s !! n), (pins s !! n). }
  split.
  { intros n Hn. rewrite settle_credits, settle_pins.
    destruct (in_dec string_dec n (roommates s)); [contradiction|].
    now destruct (credits s !! n), (pins s !! n). }
  rewrite settle_eq at 1 2 3 4. cbn [roommates queue paused history].
  do 4 (split; [reflexivity|]).
  assert ((forall n, In n (roommates s) ->
             is_Some (credits s !! n) /\ is_Some (pins s !! n)) ->
          ensureEntries s = []) as Hnothing.
  { intros Hall. apply ensureEntries_complete. intros n Hn.
    destruct (Hall n Hn) as [[v Hv] [p Hp]].
    rewrite (get_own _ _ _ Hv), (get_own _ _ _ Hp). split; discriminate. }
  split.
  { intros Hall. split; [now apply Hnothing|].
    unfold settle. now rewrite Hnothing. }
  split; [assumption|].
  unfold settle at 1. now rewrite Hdone.
Qed.

Lemma ensureEntries_completes_witness :
  ensureEntries mounted = [] /\ settle mounted = mounted.
Proof.
  apply (proj1 (proj2 (proj2 (proj2 (proj2 (proj2 (proj2 (proj2
           (ensureEntries_completes mounted))))))))).
  intros n Hn. vm_compute in Hn. vm_compute.
  destruct Hn as [<-|[<-|[<-|[<-|[]]]]]; split; eexists; reflexivity.
Defined.

(** ** The names field *)

Section Names.

Lemma trimStart_head s :
  Js.trimStart s = "" \/
  exists c t, Js.trimStart s = String c t /\ Js.is_space c = false.
Proof.
  induction s as [|c s IH]; simpl; [now left|].
  destruct (Js.is_space c) eqn:Hc; [assumption|]. right. eauto.
Qed.

Lemma trimEnd_idem s : Js.trimEnd (Js.trimEnd s) = Js.trimEnd s.
Proof.
  induction s as [|c s IH]; simpl; [reflexivity|].
  destruct (Js.is_space c && Js.is_empty (Js.trimEnd s)) eqn:Hc;
    [reflexivity|].
  simpl. now rewrite IH, Hc.
Qed.

Lemma trim_idem s : Js.trim (Js.trim s) = Js.trim s.
Proof.
  unfold Js.trim.
  destruct (trimStart_head s) as [->|(c & t & -> & Hc)]; [reflexivity|].
  simpl. rewrite Hc. simpl. rewrite Hc. simpl.
  now rewrite trimEnd_idem, Hc.
Qed.

Lemma trim_space s : Js.trim (String " " s) = Js.trim s.
Proof. reflexivity. Qed.

Lemma no_comma_trimStart s : no_comma s = true -> no_comma (Js.trimStart s) = true.
Proof.
  induction s as [|c s IH]; simpl; [reflexivity|].
  intros [Hc Hs]%andb_true_iff.
  destruct (Js.is_space c); [auto|]. simpl. now rewrite Hc, Hs.
Qed.

Lemma no_comma_trimEnd s : no_comma s = true -> no_comma (Js.trimEnd s) = true.
Proof.
  induction s as [|c s IH]; simpl; [reflexivity|].
  intros [Hc Hs]%andb_true_iff.
  destruct (Js.is_space c && Js.is_empty (Js.trimEnd s)); [reflexivity|].
  simpl. now rewrite Hc, IH.
Qed.

Lemma split_comma_cons s : exists h t, Js.split_comma s = h :: t.
Proof.
  induction s as [|c s (h & t & IH)]; simpl; [eauto|].
  destruct (Ascii.eqb c ","); [eauto|]. rewrite IH. eauto.
Qed.

Lemma split_comma_pieces s :
  Forall (fun p => no_comma p = true) (Js.split_comma s).
Proof.
  induction s as [|c s IH]; simpl; [now repeat constructor|].
  destruct (Ascii.eqb c ",") eqn:Hc; [now constructor|].
  destruct (Js.split_comma s) as [|h t].
  { constructor; [simpl; now rewrite Hc|constructor]. }
  inversion IH as [|? ? Hh Ht]; subst. constructor; [|assumption].
  simpl. now rewrite Hc, Hh.
Qed.

Lemma split_comma_single a : no_comma a = true -> Js.split_comma a = [a].
Proof.
  induction a as [|c a IH]; simpl; [reflexivity|].
  intros [Hc Ha]%andb_true_iff. apply negb_true_iff in Hc.
  now rewrite Hc, (IH Ha).
Qed.

Lemma split_comma_app a b :
  no_comma a = true ->
  Js.split_comma (a ++ String "," b) = a :: Js.split_comma b.
Proof.
  induction a as [|c a IH]; simpl; [reflexivity|].
  intros [Hc Ha]%andb_true_iff. apply negb_true_iff in Hc.
  now rewrite Hc, (IH Ha).
Qed.

Lemma parseNames_space s : parseNames (String " " s) = parseNames s.
Proof.
  unfold parseNames. simpl.
  now destruct (split_comma_cons s) as (h & t & ->).
Qed.

Lemma parseNames_app n s :
  clean_name n -> parseNames (n ++ String "," s) = n :: parseNames s.
Proof.
  intros (Hne & Htrim & Hcomma). unfold parseNames.
  rewrite split_comma_app by assumption. simpl. rewrite Htrim.
  apply truthy_nonempty in Hne. now rewrite Hne.
Qed.

Lemma parseNames_single n : clean_name n -> parseNames n = [n].
Proof.
  intros (Hne & Htrim & Hcomma). unfold parseNames.
  rewrite split_comma_single by assumption. simpl. rewrite Htrim.
  apply truthy_nonempty in Hne. now rewrite Hne.
Qed.

Lemma parseNames_join l : Forall clean_name l -> parseNames (joinNames l) = l.
Proof.
  induction l as [|n rest IH]; intros Hall; [reflexivity|].
  inversion Hall as [|? ? Hn Hrest]; subst.
  destruct rest as [|m rest]; [now apply parseNames_single|].
  change (joinNames (n :: m :: rest))
    with (n ++ String "," (String " " (joinNames (m :: rest))))%string.
  rewrite parseNames_app, parseNames_space by assumption.
  now rewrite IH.
Qed.

Lemma parseNames_clean value : Forall clean_name (parseNames value).
Proof.
  apply List.Forall_forall. intros n Hn.
  unfold parseNames in Hn. apply filter_In in Hn as [Hmap Ht].
  apply in_map_iff in Hmap as (p & <- & Hp).
  split; [now apply truthy_nonempty|]. split; [apply trim_idem|].
  pose proof (split_comma_pieces value) as Hpieces.
  rewrite List.Forall_forall in Hpieces.
  now apply no_comma_trimEnd, no_comma_trimStart, Hpieces.
Qed.

Lemma trimStart_blank p :
  blank p = true -> no_comma p = true -> Js.trimStart p = "".
Proof.
  induction p as [|c p IH]; [reflexivity|].
  cbn [blank no_comma Js.trimStart].
  intros [Hc Hp]%andb_true_iff [Hn Hq]%andb_true_iff.
  apply negb_true_iff in Hn.
  destruct (Js.is_space c); [auto|].
  rewrite Hn in Hc. discriminate Hc.
Qed.

Lemma split_comma_blank s :
  blank s = true -> Forall (fun p => blank p = true) (Js.split_comma s).
Proof.
  induction s as [|c s IH]; [now repeat constructor|].
  cbn [blank Js.split_comma].
  intros [Hc Hs]%andb_true_iff. specialize (IH Hs).
  destruct (Ascii.eqb c ",") eqn:Hcomma; [now constructor|].
  destruct (Js.split_comma s) as [|h t].
  { constructor; [|constructor]. cbn [blank]. now rewrite Hcomma, Hc. }
  inversion IH as [|? ? Hh Ht]; subst. constructor; [|assumption].
  cbn [blank]. now rewrite Hcomma, Hc, Hh.
Qed.

Lemma parseNames_blank value : blank value = true -> parseNames value = [].
Proof.
  intros Hb. unfold parseNames.
  pose proof (split_comma_blank value Hb) as Hblank.
  pose proof (split_comma_pieces value) as Hcomma.
  induction (Js.split_comma value) as [|p l IH]; [reflexivity|].
  inversion Hblank; inversion Hcomma; subst. simpl.
  unfold Js.trim at 1. rewrite trimStart_blank by assumption. simpl. auto.
Qed.

(** The roster changes only when the names field is left with a name in
    it. *)
Lemma commit_completeLoad_roommates i w k a b r :
  roommates (commit (completeLoad i w k a b true r) r) = roommates r.
Proof. now rewrite completeLoad_commit. Qed.

Lemma step_roommates r r' :
  step r r' ->
  roommates r' = roommates r \/
  exists value, parseNames value <> [] /\ roommates r' = parseNames value.
Proof.
  intros Hstep. destruct Hstep as
    [r value|r name Hin|r idx q Hidx Hre|r idx q Hidx Hre
    |r n value c us c' Hin Hset|r i w k c us c' Hrec
    |r i w k name action c us c' Hin Hclaim|r c us c' Hreset].
  - destruct (decide (parseNames value = [])) as [Hnil|Hne].
    + left. unfold setRoster, setRoommatesFromInput. now rewrite decide_True.
    + right. exists value. split; [assumption|].
      now rewrite setRoster_eq.
  - now left.
  - now left.
  - now left.
  - left. unfold setPin, bind, ret, alert in Hset.
    destruct (Js.truthy _ && negb _); injection Hset as <- _; reflexivity.
  - left. destruct (handleComplete_cases _ _ _ _ _ _ _ Hrec)
      as [->|(a & b & _ & _ & ->)]; [reflexivity|].
    apply commit_completeLoad_roommates.
  - left. rewrite quickClaim_eq in Hclaim.
    destruct (requirePinFor name r c) as [[[]|e] c1];
      [injection Hclaim as <- _; apply commit_completeLoad_roommates
      |injection Hclaim as <- _; reflexivity|discriminate].
  - left. unfold resetCredits, bind, ret, confirm in Hreset.
    destruct (replies c (asked c)); simpl in Hreset;
      injection Hreset as <- _; reflexivity.
Qed.

Lemma default_names_clean : Forall clean_name (roommates mounted).
Proof. repeat constructor; discriminate. Qed.

Lemma reachable_roster s :
  reachable s -> Forall clean_name (roommates s) /\ roommates s <> [].
Proof.
  unfold reachable. intros Hrtc.
  assert (Forall clean_name (roommates mounted) /\ roommates mounted <> [])
    as H0 by (split; [apply default_names_clean|discriminate]).
  induction Hrtc as [|x y z Hstep _ IH]; [assumption|].
  apply IH. destruct (step_roommates x y Hstep) as [->|(value & Hne & ->)];
    [assumption|]. split; [apply parseNames_clean|assumption].
Qed.

End Names.

(** X6.  The names field is shown as [roommates.join(", ")] and read back by
    splitting at the commas, trimming and dropping the blanks.  Reading back
    what is shown gives the roster again whenever its names are not empty,
    trimmed and without a comma; every name read from the field is such a
    name, and so is every roommate in every state the application reaches,
    where the roster is never empty. *)
Theorem names_field_round_trip (value : string) (l : list string) :
  (Forall clean_name l -> parseNames (joinNames l) = l) /\
  Forall clean_name (parseNames value) /\
  (forall s, reachable s ->
     roommates s <> [] /\ parseNames (joinNames (roommates s)) = roommates s).
Proof.
  split; [apply parseNames_join|]. split; [apply parseNames_clean|].
  intros s [Hclean Hne]%reachable_roster. split; [assumption|].
  now apply parseNames_join.
Qed.

Lemma names_field_round_trip_witness :
  parseNames (joinNames ["Ann Lee"; "Bo"; "C-3"]) = ["Ann Lee"; "Bo"; "C-3"] /\
  parseNames (joinNames (roommates (setRoster " x ,y" mounted)))
  = roommates (setRoster " x ,y" mounted).
Proof.
  split.
  - apply (proj1 (names_field_round_trip "" ["Ann Lee"; "Bo"; "C-3"])).
    repeat constructor; discriminate.
  - apply (proj2 (proj2 (names_field_round_trip "" []))).
    eapply rtc_l; [apply (step_names mounted " x ,y")|apply rtc_refl].
Defined.

(** X7.  A names field that holds nothing but white space and commas is
    ignored: [setRoommatesFromInput] calls no [setState] and shows no
    message, so the roster and everything else stay as they are. *)
Theorem blank_names_ignored (value : string) (r : state) :
  blank value = true ->
  parseNames value = [] /\
  setRoommatesFromInput value r = [] /\
  setRoster value r = r.
Proof.
  intros Hnil%parseNames_blank. split; [assumption|].
  unfold setRoster, setRoommatesFromInput. now rewrite decide_True.
Qed.

Lemma blank_names_ignored_witness : setRoster " , ,, " stateA1234 = stateA1234.
Proof.
  apply (proj2 (proj2 (blank_names_ignored " , ,, " stateA1234 eq_refl))).
Defined.

(** ** Replacing the roster, again *)

(** X8.  Leaving the names field twice with the same content is the same as
    leaving it once. *)
Theorem setRoster_idempotent (value : string) (s : state) :
  setRoster value (setRoster value s) = setRoster value s.
Proof.
  destruct (decide (parseNames value = [])) as [Hnil|Hne].
  { unfold setRoster, setRoommatesFromInput. now rewrite decide_True. }
  rewrite (setRoster_eq value (setRoster value s)) by assumption.
  rewrite (setRoster_eq value s) by assumption.
  cbn [roommates queue paused credits history pins]. f_equal.
  - apply map_eq. intros n.
    destruct (in_dec string_dec n (parseNames value)) as [Hin|Hout].
    + rewrite !(reduce_lookup_in (fun n => readCredit _ n)) by assumption.
      f_equal. apply readCredit_own.
      now rewrite (reduce_lookup_in (fun n => readCredit _ n)).
    + now rewrite !reduce_lookup_out by assumption.
  - apply map_eq. intros n.
    destruct (in_dec string_dec n (parseNames value)) as [Hin|Hout].
    + rewrite !(reduce_lookup_in (fun n => readPin _ n)) by assumption.
      f_equal. apply readPin_own.
      now rewrite (reduce_lookup_in (fun n => readPin _ n)).
    + now rewrite !reduce_lookup_out by assumption.
Qed.



(** ** A completed load *)

Section Completed.

Variables (i w : string) (k : load_kind) (r : state) (c : console).

Lemma handleComplete_passed :
  let runBy := claimed c (defaultName r) in
  let gate1 := requirePinFor runBy r (answered c) in
  let unloadBy := claimed (snd gate1) runBy in
  let gate2 := requirePinFor unloadBy r (answered (snd gate1)) in
  runBy <> "" -> fst gate1 = Returned true -> fst gate2 = Returned true ->
  handleComplete i w k r c
  = (Returned (completeLoad i w k runBy unloadBy true r), snd gate2).
Proof.
  intros runBy gate1 unloadBy gate2 Hne%truthy_nonempty Hgate1 Hgate2.
  rewrite handleComplete_eq. cbv zeta. fold runBy. rewrite Hne.
  fold gate1. subst gate2 unloadBy. destruct gate1 as [ok1 c1]. simpl in *.
  subst ok1. destruct (requirePinFor _ r (answered c1)) as [ok2 c2].
  simpl in *. now subst ok2.
Qed.

Lemma advance_current_next :
  (2 <= length (activeQueue r))%nat -> current (advance r) = next r.
Proof.
  unfold current, next. rewrite advance_active.
  destruct (activeQueue r) as [|a0 [|a1 rest]]; simpl; [lia|lia|reflexivity].
Qed.

Lemma advance_current_alone :
  (length (activeQueue r) <= 1)%nat -> current (advance r) = current r.
Proof.
  unfold current. rewrite advance_active.
  destruct (activeQueue r) as [|a0 [|a1 rest]]; simpl; [reflexivity..|lia].
Qed.

End Completed.

(** X10.  When both PIN checks of [handleComplete] pass, the state it leaves
    is the one obtained by recording the load for the two names and then
    rotating the queue of the result; the rotation computed from the render
    the handler ran in is not stale.  The new entry heads the history and the
    roster, the paused flags and the PINs stay. *)
Theorem handleComplete_commits (i w : string) (k : load_kind) (r : state)
    (c : console) :
  let runBy := claimed c (defaultName r) in
  let gate1 := requirePinFor runBy r (answered c) in
  let unloadBy := claimed (snd gate1) runBy in
  let gate2 := requirePinFor unloadBy r (answered (snd gate1)) in
  runBy <> "" -> fst gate1 = Returned true -> fst gate2 = Returned true ->
  let s' := fst (dispatch (handleComplete i w k) r c) in
  s' = advance (recordCompletion i w k runBy unloadBy r) /\
  snd (dispatch (handleComplete i w k) r c) = snd gate2 /\
  unloadBy <> "" /\
  head (history s') = Some (entry_of i w k runBy unloadBy) /\
  activeQueue s' = rotate_left1 (activeQueue r) /\
  roommates s' = roommates r /\ paused s' = paused r /\ pins s' = pins r.
Proof.
  intros runBy gate1 unloadBy gate2 Hne Hgate1 Hgate2 s'.
  subst s'. unfold dispatch.
  rewrite (handleComplete_passed i w k r c Hne Hgate1 Hgate2).
  fold runBy gate1 unloadBy gate2. cbn [fst snd].
  rewrite completeLoad_advance.
  split; [reflexivity|]. split; [reflexivity|].
  split; [now apply claimed_nonempty|].
  rewrite advance_rest. cbn [with_queue history roommates paused pins].
  split; [reflexivity|]. rewrite <- advance_rest, advance_active.
  now repeat split.
Qed.

Lemma handleComplete_commits_witness :
  fst (dispatch (handleComplete "i" "t" KNight) stateA1234
         (scripted [Ok "A"; Ok "1234"; Ok "B"]))
  = advance (recordCompletion "i" "t" KNight "A" "B" stateA1234).
Proof.
  apply (handleComplete_commits "i" "t" KNight stateA1234
           (scripted [Ok "A"; Ok "1234"; Ok "B"])
           ltac:(discriminate) eq_refl eq_refl).
Defined.

(** X11.  After [advanceQueue] the default runner is the name that was shown
    as next, when at least two names are active; with at most one active
    name the default runner stays. *)
Theorem advance_current (r : state) :
  ((2 <= length (activeQueue r))%nat -> current (advance r) = next r) /\
  ((length (activeQueue r) <= 1)%nat -> current (advance r) = current r).
Proof.
  split; [apply advance_current_next|apply advance_current_alone].
Qed.

Lemma advance_current_witness :
  current (advance stateA1234) = next stateA1234 /\
  current (advance (toggle "A" (toggle "B" (toggle "C" mounted))))
  = current (toggle "A" (toggle "B" (toggle "C" mounted))).
Proof.
  split.
  - apply (proj1 (advance_current stateA1234)). vm_compute. lia.
  - apply (proj2 (advance_current _)). vm_compute. lia.
Defined.

(** ** What one action changes *)

Section Shapes.

Lemma active_paused_permutation r :
  Permutation (activeQueue r ++ pausedList r) (queue r).
Proof.
  apply (split_permutation (fun n => is_paused (paused r) n)).
Qed.

Lemma rotate_left1_permutation {A} (l : list A) :
  Permutation (rotate_left1 l) l.
Proof.
  destruct l as [|a l]; simpl; [constructor|].
  symmetry. apply Permutation_cons_append.
Qed.

Lemma advance_permutation r : Permutation (queue (advance r)) (queue r).
Proof.
  destruct (activeQueue r) as [|a0 rest] eqn:Ha.
  - now rewrite advance_eq, Ha.
  - rewrite advance_queue by (rewrite Ha; discriminate).
    rewrite <- (active_paused_permutation r).
    apply Permutation_app_tail, rotate_left1_permutation.
Qed.

Lemma keeps_rotation_refl r : keeps_rotation r r.
Proof. repeat split; auto. Qed.

Lemma keeps_rotation_completeLoad i w k a b r :
  keeps_rotation r (commit (completeLoad i w k a b true r) r).
Proof.
  rewrite completeLoad_commit. repeat split; auto.
  apply advance_permutation.
Qed.

Lemma keeps_rotation_click (idx target : nat) r q :
  (idx < length (activeQueue r))%nat ->
  reorderQueue (Z.of_nat idx) (Z.of_nat target) r = Requeued q ->
  keeps_rotation r (with_queue q r).
Proof.
  intros Hidx Hre.
  destruct (click_requeue idx target r q Hidx Hre) as (moved & -> & Hperm).
  repeat split; auto. cbn [with_queue queue].
  rewrite <- (active_paused_permutation r).
  now apply Permutation_app_tail.
Qed.

Lemma step_shape r r' :
  step r r' ->
  keeps_rotation r r' \/
  exists value, parseNames value <> [] /\ r' = setRoster value r.
Proof.
  intros Hstep. destruct Hstep as
    [r value|r name Hin|r idx q Hidx Hre|r idx q Hidx Hre
    |r n value c us c' Hin Hset|r i w k c us c' Hrec
    |r i w k name action c us c' Hin Hclaim|r c us c' Hreset].
  - destruct (decide (parseNames value = [])) as [Hnil|Hne].
    + left. unfold setRoster, setRoommatesFromInput. rewrite decide_True
        by assumption. apply keeps_rotation_refl.
    + right. eauto.
  - left. fold (toggle name r).
    assert (is_paused (paused r) name = false) as Hname.
    { unfold activeQueue in Hin. apply filter_In in Hin as [_ Hact].
      now apply negb_true_iff in Hact. }
    split; [reflexivity|]. split; [apply toggle_permutation|].
    rewrite toggle_eq. cbn [paused]. rewrite Hname. simpl. split.
    * intros n Hn. rewrite is_paused_insert.
      now destruct (String.eqb n name).
    * intros n. rewrite is_paused_insert.
      destruct (String.eqb_spec n name) as [->|]; auto.
  - left. apply (keeps_rotation_click idx (idx - 1)); [assumption|].
    now replace (Z.of_nat (idx - 1)) with (Z.max 0 (Z.of_nat idx - 1)) by lia.
  - left.
    apply (keeps_rotation_click idx
             (Nat.min (length (activeQueue r) - 1) (idx + 1)));
      [assumption|].
    now replace (Z.of_nat (Nat.min (length (activeQueue r) - 1) (idx + 1)))
      with (Z.min (Z.of_nat (length (activeQueue r)) - 1) (Z.of_nat idx + 1))
      by lia.
  - left. unfold setPin, bind, ret, alert in Hset.
    destruct (Js.truthy _ && negb _); injection Hset as <- _;
      repeat split; auto.
  - left. destruct (handleComplete_cases _ _ _ _ _ _ _ Hrec)
      as [->|(a & b & _ & _ & ->)]; [apply keeps_rotation_refl|].
    apply keeps_rotation_completeLoad.
  - left. rewrite quickClaim_eq in Hclaim.
    destruct (requirePinFor name r c) as [[[]|e] c1];
      [injection Hclaim as <- _; apply keeps_rotation_completeLoad
      |injection Hclaim as <- _; apply keeps_rotation_refl|discriminate].
  - left. unfold resetCredits, bind, ret, confirm in Hreset.
    destruct (replies c (asked c)); simpl in Hreset;
      injection Hreset as <- _; repeat split; auto.
Qed.

Lemma step_stays_paused r r' n :
  step r r' -> is_paused (paused r) n = true -> is_paused (paused r') n = true.
Proof.
  intros [(_ & _ & Hkeep & _)|(value & Hne & ->)]%step_shape; [auto|].
  now rewrite setRoster_eq.
Qed.

Lemma not_active_of_paused s n :
  is_paused (paused s) n = true -> ~ In n (activeQueue s).
Proof.
  intros Hn [_ Hact]%filter_In. rewrite Hn in Hact. discriminate.
Qed.

Lemma step_rotation_covers r r' :
  step r r' -> rotation_covers r -> rotation_covers r'.
Proof.
  intros [(Hroom & Hperm & Hmono & _)|(value & Hne & ->)]%step_shape
    [Hsub Hsup].
  - split.
    + intros n Hn. rewrite Hroom. apply Hsub.
      now apply (Permutation_in _ Hperm).
    + intros n Hn Hact. rewrite Hroom in Hn.
      apply (Permutation_in _ (Permutation_sym Hperm)), Hsup; [assumption|].
      destruct (is_paused (paused r) n) eqn:Hp; [|reflexivity].
      rewrite (Hmono _ Hp) in Hact. discriminate.
  - rewrite setRoster_eq by assumption. split; cbn [queue roommates paused].
    + now intros n [Hn _]%filter_In.
    + intros n Hn Hact. apply filter_In. now rewrite Hact.
Qed.

Lemma reachable_rotation_covers s : reachable s -> rotation_covers s.
Proof.
  unfold reachable. intros Hrtc.
  assert (rotation_covers mounted) as H0.
  { split; [now intros n|]. now intros n. }
  induction Hrtc as [|x y z Hstep _ IH]; [assumption|].
  apply IH. now apply (step_rotation_covers x).
Qed.

End Shapes.

(** X12.  Pausing cannot be undone on the page: the only pause button is
    drawn for the names of the active queue, so whatever the user does next,
    a paused name stays paused, stays out of the active queue and is never
    the default runner. *)
Theorem pause_is_permanent (s s' : state) (n : string) :
  rtc step s s' ->
  is_paused (paused s) n = true ->
  is_paused (paused s') n = true /\
  ~ In n (activeQueue s') /\
  current s' <> Some n.
Proof.
  intros Hrtc Hn.
  assert (is_paused (paused s') n = true) as Hn'.
  { induction Hrtc as [|x y z Hstep _ IH]; [assumption|].
    apply IH. now apply (step_stays_paused x). }
  split; [assumption|].
  pose proof (not_active_of_paused s' n Hn') as Hout.
  split; [assumption|].
  unfold current. intros Hcur. apply Hout.
  destruct (activeQueue s') as [|a rest]; [discriminate|].
  destruct (Js.truthy a); [|discriminate].
  injection Hcur as ->. now left.
Qed.

Lemma pause_is_permanent_witness :
  is_paused (paused (setRoster "A,B,C,D" (toggle "B" mounted))) "B" = true /\
  ~ In "B" (activeQueue (setRoster "A,B,C,D" (toggle "B" mounted))) /\
  current (setRoster "A,B,C,D" (toggle "B" mounted)) <> Some "B".
Proof.
  apply (pause_is_permanent (toggle "B" mounted)
           (setRoster "A,B,C,D" (toggle "B" mounted)) "B").
  - apply rtc_once, step_names.
  - reflexivity.
Defined.

Section Defaults.

Lemma current_active r n : current r = Some n -> In n (activeQueue r).
Proof.
  unfold current. destruct (activeQueue r) as [|a rest]; [discriminate|].
  destruct (Js.truthy a); [|discriminate]. intros [= ->]. now left.
Qed.

Lemma reachable_defaultName r :
  reachable r -> In (defaultName r) (roommates r) /\ defaultName r <> "".
Proof.
  intros Hreach.
  destruct (reachable_rotation_covers r Hreach) as [Hsub _].
  destruct (reachable_roster r Hreach) as [Hclean Hne].
  assert (In (defaultName r) (roommates r)) as Hin.
  { unfold defaultName. destruct (current r) as [n|] eqn:Hcur.
    - apply Hsub. apply current_active in Hcur.
      unfold activeQueue in Hcur. now apply filter_In in Hcur as [Hq _].
    - destruct (roommates r) as [|m rest]; [contradiction|]. now left. }
  split; [assumption|].
  rewrite List.Forall_forall in Hclean. now destruct (Hclean _ Hin).
Qed.

Lemma requirePinFor_alerts name r c :
  alerts (snd (requirePinFor name r c)) = alerts c \/
  (fst (requirePinFor name r c) = Returned false /\
   alerts (snd (requirePinFor name r c)) = alerts c ++ [IncorrectPin]).
Proof.
  destruct (requirePinFor_console name r c) as [H|[H|[H|H]]]; rewrite H;
    simpl; auto.
Qed.

End Defaults.

(** X13.  In every state the application reaches, the queue holds roommates
    only and holds every roommate that is not paused, and the default runner
    of [handleComplete] is a roommate.  So the warning "Please set roommates
    first." is never shown: all that [handleComplete] can add to the alerts
    is one "Incorrect PIN.". *)
Theorem default_runner_is_roommate (i w : string) (k : load_kind) (r : state)
    (c : console) :
  reachable r ->
  (forall n, In n (queue r) -> In n (roommates r)) /\
  (forall n, In n (roommates r) -> is_paused (paused r) n = false ->
     In n (activeQueue r)) /\
  In (defaultName r) (roommates r) /\
  claimed c (defaultName r) <> "" /\
  (alerts (snd (handleComplete i w k r c)) = alerts c \/
   alerts (snd (handleComplete i w k r c)) = alerts c ++ [IncorrectPin]).
Proof.
  intros Hreach.
  destruct (reachable_rotation_covers r Hreach) as [Hsub Hsup].
  destruct (reachable_defaultName r Hreach) as [Hin Hne].
  split; [assumption|]. split.
  { intros n Hn Hact. apply filter_In. split; [now apply Hsup|].
    now rewrite Hact. }
  split; [assumption|].
  assert (claimed c (defaultName r) <> "") as Hrun
    by now apply claimed_nonempty.
  split; [assumption|].
  rewrite handleComplete_eq. cbv zeta.
  apply truthy_nonempty in Hrun. rewrite Hrun.
  destruct (requirePinFor_alerts (claimed c (defaultName r)) r (answered c))
    as [Hsame|[Hfail Hadd]].
  - destruct (requirePinFor _ r (answered c)) as [[[]|e] c1] eqn:Hg1;
      cbn [fst snd] in *; [|now left..].
    destruct (requirePinFor_alerts
                (claimed c1 (claimed c (defaultName r))) r (answered c1))
      as [Hsame2|[Hfail2 Hadd2]].
    + destruct (requirePinFor _ r (answered c1)) as [[[]|e] c2];
        cbn [fst snd answered alerts] in *; left; congruence.
    + destruct (requirePinFor _ r (answered c1)) as [ok2 c2];
        cbn [fst snd] in *. subst ok2.
      cbn [fst snd answered alerts] in *. right. now rewrite Hadd2, Hsame.
  - destruct (requirePinFor _ r (answered c)) as [ok1 c1];
      cbn [fst snd] in *. subst ok1. cbn [fst snd] in *. now right.
Qed.

Lemma default_runner_is_roommate_witness :
  In (defaultName (toggle "A" mounted)) (roommates (toggle "A" mounted)) /\
  defaultName (toggle "A" mounted) = "B".
Proof.
  split; [|reflexivity].
  assert (reachable (toggle "A" mounted)) as Hreach.
  { apply rtc_once. apply (step_pause mounted "A").
    vm_compute. left. reflexivity. }
  apply (proj1 (proj2 (proj2 (default_runner_is_roommate "i" "t" K3pm
           (toggle "A" mounted) (scripted []) Hreach)))).
Defined.

(** ** The ledger across actions *)



Section Total.

Lemma total_comm (j1 j2 : string) (z1 z2 : credit) (y : Qc) :
  (numeric z1 + (numeric z2 + y) = numeric z2 + (numeric z1 + y))%Qc.
Proof. ring. Qed.

Lemma totalCredits_empty : totalCredits ∅ = 0%Qc.
Proof. apply map_fold_empty. Qed.

Lemma totalCredits_insert_new c n v :
  c !! n = None ->
  totalCredits (<[n := v]> c) = (numeric v + totalCredits c)%Qc.
Proof.
  intros Hn. unfold totalCredits.
  apply (map_fold_insert_L (fun _ v acc => (numeric v + acc)%Qc));
    [|assumption].
  intros. apply total_comm; assumption.
Qed.

(** Replacing the credit of a name moves the total by the difference. *)
Lemma totalCredits_insert c n v :
  (totalCredits (<[n := v]> c) + numeric (default (Num 0) (c !! n))
   = numeric v + totalCredits c)%Qc.
Proof.
  destruct (c !! n) as [v0|] eqn:Hn; simpl.
  - rewrite <- (insert_delete_eq c).
    rewrite totalCredits_insert_new by apply lookup_delete_eq.
    rewrite <- (insert_delete_id c n v0 Hn) at 2.
    rewrite totalCredits_insert_new by apply lookup_delete_eq. ring.
  - rewrite totalCredits_insert_new by assumption. ring.
Qed.

Lemma totalCredits_bump c n q :
  readCredit c n = Num q ->
  totalCredits (assign n (Num (q + half)%Qc) c) = (totalCredits c + half)%Qc.
Proof.
  intros Hq. rewrite assign_insert by now apply (readCredit_num _ _ q).
  pose proof (totalCredits_insert c n (Num (q + half)%Qc)) as H.
  assert (numeric (default (Num 0) (c !! n)) = q) as Hold.
  { unfold readCredit, get in Hq. destruct (c !! n) as [v|]; simpl.
    - now subst v.
    - destruct (Js.inherited n); [discriminate|]. now injection Hq as <-. }
  rewrite Hold in H. cbn [numeric] in H.
  transitivity
    (totalCredits (<[n := Num (q + half)%Qc]> c) + q - q)%Qc; [ring|].
  rewrite H. ring.
Qed.

Lemma totalCredits_zero (c : gmap string credit) :
  totalCredits ((fun _ => Num 0%Qc) <$> c) = 0%Qc.
Proof.
  induction c as [|n v c Hn IH] using map_ind.
  - now rewrite fmap_empty.
  - rewrite fmap_insert, totalCredits_insert_new
      by (now rewrite lookup_fmap, Hn).
    rewrite IH. simpl. ring.
Qed.

End Total.

(** X15.  Each recorded load hands out exactly one credit: where the credits
    of the two names read as numbers, [addCredits] raises the sum of all
    credits by 1, be the names equal or not; a reset brings the sum to 0. *)
Theorem load_adds_one_credit (i w : string) (k : load_kind) (a b : string)
    (s : state) (c : console) :
  a <> "" -> b <> "" ->
  (forall qa qb,
     readCredit (credits s) a = Num qa -> readCredit (credits s) b = Num qb ->
     totalCredits (credits (recordCompletion i w k a b s))
     = (totalCredits (credits s) + 1)%Qc) /\
  (replies c (asked c) <> Cancel ->
   totalCredits (credits (fst (dispatch resetCredits s c))) = 0%Qc).
Proof.
  intros Ha Hb. split.
  - intros qa qb Hqa Hqb.
    rewrite recordCompletion_eq by assumption. cbv zeta. cbn [credits].
    rewrite Hqa. cbn [addHalf].
    assert (exists q, readCredit
              (assign a (Num (qa + half)%Qc) (credits s)) b = Num q)
      as [q Hq].
    { destruct (decide (a = b)) as [<-|Hab].
      - exists (qa + half)%Qc.
        rewrite assign_insert by now apply (readCredit_num _ _ qa).
        apply readCredit_own, lookup_insert_eq.
      - exists qb. now rewrite readCredit_assign_ne. }
    rewrite Hq. cbn [addHalf].
    rewrite (totalCredits_bump _ b q Hq), (totalCredits_bump _ a qa Hqa).
    rewrite <- half_half. ring.
  - intros Hok. unfold dispatch, resetCredits, bind, ret, confirm.
    destruct (replies c (asked c)); [contradiction|]. simpl.
    apply totalCredits_zero.
Qed.

Lemma load_adds_one_credit_witness :
  totalCredits (credits (recordCompletion "i" "t" K3pm "A" "A" stateA1234))
  = (totalCredits (credits stateA1234) + 1)%Qc.
Proof.
  apply (proj1 (load_adds_one_credit "i" "t" K3pm "A" "A" stateA1234
                  (scripted []) ltac:(discriminate) ltac:(discriminate))
           0%Qc 0%Qc eq_refl eq_refl).
Defined.

(** ** Setting a PIN and passing the gate *)

(** X16.  Once [setPin] has stored a PIN of 4 to 8 digits for a name, the
    gate asks for it: an entry passes exactly when, trimmed, it is the
    trimmed candidate that was stored, and cancelling the dialog fails.  The
    gate of every other name answers as before. *)
Theorem pin_round_trip (name candidate : string) (r : state) (c c' : console) :
  Js.pin_regex (Js.trim candidate) = true ->
  let r' := fst (dispatch (setPin name candidate) r c) in
  storedPin r' name = Returned (Js.trim candidate) /\
  (forall s, replies c' (asked c') = Ok s ->
     (fst (requirePinFor name r' c') = Returned true
        <-> Js.trim s = Js.trim candidate)) /\
  (replies c' (asked c') = Cancel ->
     fst (requirePinFor name r' c') = Returned false) /\
  (forall other, other <> name ->
     requirePinFor other r' c' = requirePinFor other r c').
Proof.
  intros Hre r'.
  assert (r' = commit [fun s =>
            {| roommates := roommates s; queue := queue s; paused := paused s;
               credits := credits s; history := history s;
               pins := <[name := Pin (Js.trim candidate)]> (pins s) |}] r)
    as Hr'.
  { subst r'. unfold dispatch. now rewrite setPin_stores by now right. }
  assert (storedPin r' name = Returned (Js.trim candidate)) as Hstored.
  { rewrite Hr'. apply storedPin_own. cbn. apply lookup_insert_eq. }
  assert (Js.trim candidate <> "") as Hne by now apply pin_nonempty.
  assert (Js.trim (Js.trim candidate) = Js.trim candidate) as Htrim
    by now apply trim_pin.
  split; [assumption|]. split; [|split].
  - intros s Hs.
    rewrite (requirePinFor_entered name r' c' _ s Hstored Hne Htrim Hs).
    destruct (decide (Js.trim s = Js.trim candidate)); simpl;
      intuition congruence.
  - intros Hcancel.
    rewrite (requirePinFor_cancelled name r' c' _ Hstored);
      [reflexivity| |assumption].
    now rewrite Htrim.
  - intros other Hother. unfold requirePinFor, storedPin. rewrite Hr'. cbn.
    now rewrite get_insert_ne by congruence.
Qed.

Lemma pin_round_trip_witness :
  fst (requirePinFor "B"
         (fst (dispatch (setPin "B" " 2468 ") mounted (scripted [])))
         (scripted [Ok "2468 "])) = Returned true.
Proof.
  apply (proj1 (proj2 (pin_round_trip "B" " 2468 " mounted (scripted [])
                         (scripted [Ok "2468 "]) eq_refl)) "2468 " eq_refl).
  reflexivity.
Defined.

(** ** The arrows *)

Section Arrows.

Context {A : Type}.

Lemma swap_up (l1 : list A) x y l2 :
  let a := l1 ++ x :: y :: l2 in
  let j := length l1 in
  take j (delete (S j) a) ++ y :: drop j (delete (S j) a) = l1 ++ y :: x :: l2.
Proof.
  induction l1 as [|c l1 IH]; simpl in *; [reflexivity|]. now rewrite IH.
Qed.

Lemma swap_down (l1 : list A) x y l2 :
  let a := l1 ++ x :: y :: l2 in
  let j := length l1 in
  take (S j) (delete j a) ++ x :: drop (S j) (delete j a) = l1 ++ y :: x :: l2.
Proof.
  induction l1 as [|c l1 IH]; simpl in *; [reflexivity|].
  now rewrite IH.
Qed.

Lemma neighbours (a : list A) j x y :
  a !! j = Some x -> a !! S j = Some y ->
  a = take j a ++ x :: y :: drop (S (S j)) a /\ length (take j a) = j.
Proof.
  intros Hx Hy. split.
  - rewrite <- (drop_S a y (S j) Hy). symmetry. now apply take_drop_middle.
  - rewrite length_take. apply lookup_lt_Some in Hx. lia.
Qed.

End Arrows.

(** X17.  The arrows of the page move a name by one place: "up" on position
    [j + 1] and "down" on position [j] both exchange the active names at [j]
    and [j + 1], keeping every other name and the paused names in place.
    "Up" on the first and "down" on the last active name call no [setState].
    No arrow puts [undefined] in the queue. *)
Theorem arrows_swap_neighbours (r : state) (j : nat) (x y : string) :
  activeQueue r !! j = Some x ->
  activeQueue r !! S j = Some y ->
  let len := Z.of_nat (length (activeQueue r)) in
  let swapped :=
    take j (activeQueue r) ++ y :: x :: drop (S (S j)) (activeQueue r) in
  reorderQueue (Z.of_nat (S j)) (Z.max 0 (Z.of_nat (S j) - 1)) r
    = Requeued (swapped ++ pausedList r) /\
  reorderQueue (Z.of_nat j) (Z.min (len - 1) (Z.of_nat j + 1)) r
    = Requeued (swapped ++ pausedList r) /\
  reorderQueue 0 (Z.max 0 (0 - 1)) r = Unchanged /\
  reorderQueue (len - 1) (Z.min (len - 1) (len - 1 + 1)) r = Unchanged.
Proof.
  intros Hx Hy len swapped.
  destruct (neighbours _ j x y Hx Hy) as [Ha Hj].
  pose proof (lookup_lt_Some _ _ _ Hy) as Hlen.
  split; [|split; [|split]].
  - replace (Z.max 0 (Z.of_nat (S j) - 1)) with (Z.of_nat j) by lia.
    rewrite (reorderQueue_inrange (S j) j r y Hy) by lia.
    cbv zeta. do 2 f_equal. subst swapped.
    remember (take j (activeQueue r)) as l1 eqn:E1.
    remember (drop (S (S j)) (activeQueue r)) as l2 eqn:E2.
    clear E1 E2. rewrite Ha, <- Hj. apply swap_up.
  - replace (Z.min (len - 1) (Z.of_nat j + 1)) with (Z.of_nat (S j))
      by (subst len; lia).
    rewrite (reorderQueue_inrange j (S j) r x Hx) by lia.
    cbv zeta. do 2 f_equal. subst swapped.
    remember (take j (activeQueue r)) as l1 eqn:E1.
    remember (drop (S (S j)) (activeQueue r)) as l2 eqn:E2.
    clear E1 E2. rewrite Ha, <- Hj. apply swap_down.
  - apply reorderQueue_same.
  - replace (Z.min (len - 1) (len - 1 + 1)) with (len - 1)%Z by lia.
    apply reorderQueue_same.
Qed.

Lemma arrows_swap_neighbours_witness :
  reorderQueue 2 (Z.max 0 (2 - 1)) mounted = Requeued ["A"; "C"; "B"; "D"] /\
  reorderQueue 1 (Z.min (4 - 1) (1 + 1)) mounted
    = Requeued ["A"; "C"; "B"; "D"].
Proof.
  pose proof (arrows_swap_neighbours mounted 1 "B" "C" eq_refl eq_refl)
    as (Hup & Hdown & _).
  split; [exact Hup|exact Hdown].
Defined.

(** ** Positions outside the active queue *)

(** X18.  [reorderQueue] does not check its positions.  Called with a source
    position at or past the end of the active names (and another target
    position), it removes nothing and inserts [undefined] at the target
    position (at the end when the target is past the end too): the queue it
    sets holds an entry that is no name. *)
Theorem reorderQueue_past_end (fromIdx toIdx : nat) (r : state) :
  (length (activeQueue r) <= fromIdx)%nat ->
  fromIdx <> toIdx ->
  reorderQueue (Z.of_nat fromIdx) (Z.of_nat toIdx) r
  = RequeuedWithUndefined
      ((Some <$> take toIdx (activeQueue r))
       ++ None :: (Some <$> drop toIdx (activeQueue r))
       ++ (Some <$> pausedList r)).
Proof.
  intros Hfrom Hne. unfold reorderQueue.
  destruct (decide (Z.of_nat fromIdx = Z.of_nat toIdx)) as [|_]; [lia|].
  rewrite splice_nothing by (now rewrite length_fmap).
  cbn [head default].
  pose proof (splice_insert (Some <$> activeQueue r) toIdx [None]) as Hins.
  destruct (Js.splice _ (Z.of_nat toIdx) 0 [None]) as [removed active2].
  cbn [snd] in Hins. subst active2.
  rewrite <- fmap_take, <- fmap_drop.
  rewrite <- !app_assoc. cbn [app].
  rewrite (mapM_None_2 (fun o : option string => o)); [reflexivity|].
  apply Exists_app. right. now constructor.
Qed.

Lemma reorderQueue_past_end_witness :
  reorderQueue 4 1 mounted
  = RequeuedWithUndefined [Some "A"; None; Some "B"; Some "C"; Some "D"].
Proof.
  apply (reorderQueue_past_end 4 1 mounted); [vm_compute; lia|discriminate].
Defined.

(** ** Pausing an active name *)

Section PauseActive.

Lemma toggle_active x s :
  activeQueue (toggle x s)
  = List.filter
      (fun n => negb (is_paused
         (<[x := negb (is_paused (paused s) x)]> (paused s)) n)) (queue s).
Proof.
  set (p := <[x := negb (is_paused (paused s) x)]> (paused s)).
  unfold activeQueue. rewrite toggle_eq. cbv zeta. cbn [queue paused]. fold p.
  rewrite List.filter_app.
  rewrite (filter_all _ (List.filter (fun n => negb (is_paused p n)) (queue s)))
    by apply forallb_filter.
  rewrite (filter_disjoint (fun n => negb (is_paused p n))
             (fun n => is_paused p n)
             (List.filter (fun n => is_paused p n) (queue s)));
    [apply app_nil_r|now intros n ->|apply forallb_filter].
Qed.

Lemma filter_absent (x : string) l :
  ~ In x l -> List.filter (fun n => negb (String.eqb n x)) l = l.
Proof.
  intros Hout. apply filter_all, forallb_forall. intros n Hn.
  destruct (String.eqb_spec n x) as [->|]; [contradiction|reflexivity].
Qed.

End PauseActive.

(** X19.  Pausing an active name takes exactly that name out of the active
    queue: the other active names keep their order, the name is paused, and
    the result is again active names followed by paused names.  If the
    paused name was the default runner, and is not repeated in the queue,
    the name that was shown as next becomes the default runner. *)
Theorem pause_leaves_rotation (x : string) (s : state) :
  is_paused (paused s) x = false ->
  activeQueue (toggle x s)
    = List.filter (fun n => negb (String.eqb n x)) (activeQueue s) /\
  ~ In x (activeQueue (toggle x s)) /\
  is_paused (paused (toggle x s)) x = true /\
  partitioned (toggle x s) /\
  (forall rest, activeQueue s = x :: rest -> ~ In x rest ->
     activeQueue (toggle x s) = rest /\ current (toggle x s) = next s).
Proof.
  intros Hx.
  assert (activeQueue (toggle x s)
          = List.filter (fun n => negb (String.eqb n x)) (activeQueue s))
    as Hact.
  { rewrite toggle_active, Hx. unfold activeQueue.
    rewrite filter_filter_comm. apply List.filter_ext. intros n.
    rewrite is_paused_insert.
    destruct (String.eqb n x); simpl; [now rewrite andb_false_r|].
    now rewrite andb_true_r. }
  split; [assumption|]. split.
  { rewrite Hact. intros [_ Hn]%filter_In.
    now rewrite String.eqb_refl in Hn. }
  split.
  { rewrite toggle_eq. cbn [paused]. rewrite is_paused_insert.
    now rewrite String.eqb_refl, Hx. }
  split.
  { now apply (partitioned_split
      (<[x := negb (is_paused (paused s) x)]> (paused s)) (queue s)). }
  intros rest Hs Hrest.
  assert (activeQueue (toggle x s) = rest) as Hnew.
  { rewrite Hact, Hs. cbn [List.filter]. rewrite String.eqb_refl. simpl.
    now apply filter_absent. }
  split; [assumption|].
  unfold current, next. rewrite Hnew, Hs. reflexivity.
Qed.

Lemma pause_leaves_rotation_witness :
  activeQueue (toggle "A" stateA1234) = ["B"; "C"; "D"] /\
  current (toggle "A" stateA1234) = next stateA1234.
Proof.
  apply (proj2 (proj2 (proj2 (proj2
    (pause_leaves_rotation "A" stateA1234 eq_refl)))) ["B"; "C"; "D"]).
  - reflexivity.
  - simpl. intuition discriminate.
Defined.

(** ** Cancelled and blank dialogs *)

Section Claimed.

Lemma claimed_cancel c fallback :
  replies c (asked c) = Cancel -> claimed c fallback = fallback.
Proof. unfold claimed, replyText. now intros ->. Qed.

Lemma claimed_typed c fallback text :
  replies c (asked c) = Ok text ->
  claimed c fallback = if Js.truthy (Js.trim text) then Js.trim text else fallback.
Proof. unfold claimed, replyText. now intros ->. Qed.

End Claimed.

(** X20.  The dialogs "Who ran it?" and "Who unloaded it?" cannot be used to
    abandon the attempt: Cancel, like a blank reply, selects the default
    (the default runner, then the runner), and any other reply is trimmed.
    So when the default runner has no PIN, cancelling both dialogs records a
    load that the default runner ran and unloaded. *)
Theorem cancel_selects_default (i w : string) (k : load_kind) (r : state)
    (c : console) (fallback : string) :
  (replies c (asked c) = Cancel -> claimed c fallback = fallback) /\
  (forall text, replies c (asked c) = Ok text ->
     (Js.trim text = "" -> claimed c fallback = fallback) /\
     (Js.trim text <> "" -> claimed c fallback = Js.trim text)) /\
  (replies c (asked c) = Cancel ->
   replies c (S (asked c)) = Cancel ->
   defaultName r <> "" ->
   storedPin r (defaultName r) = Returned "" ->
   handleComplete i w k r c
     = (Returned (completeLoad i w k (defaultName r) (defaultName r) true r),
        answered (answered c)) /\
   fst (dispatch (handleComplete i w k) r c)
     = advance (recordCompletion i w k (defaultName r) (defaultName r) r)).
Proof.
  split; [apply claimed_cancel|]. split.
  - intros text Htext. rewrite (claimed_typed c fallback text Htext). split.
    + now intros ->%truthy_false.
    + now intros ->%truthy_nonempty.
  - intros Hc1 Hc2 Hne Hpin.
    assert (handleComplete i w k r c
            = (Returned
                 (completeLoad i w k (defaultName r) (defaultName r) true r),
               answered (answered c))) as Heq.
    { apply handleComplete_allowed; try assumption.
      - now apply claimed_cancel.
      - now apply claimed_cancel. }
    split; [assumption|]. unfold dispatch. rewrite Heq.
    apply completeLoad_advance.
Qed.

Lemma cancel_selects_default_witness :
  fst (dispatch (handleComplete "i" "t" K3pm) mounted (scripted []))
  = advance (recordCompletion "i" "t" K3pm "A" "A" mounted).
Proof.
  apply (proj2 (proj2 (proj2 (cancel_selects_default "i" "t" K3pm mounted
           (scripted []) "")) eq_refl eq_refl ltac:(discriminate) eq_refl)).
Defined.

(** ** Pausing a name that is not in the queue *)

(** X21.  [togglePause] does not look the name up: for a name that is not
    in the queue it reports nothing, stores the flipped flag, and leaves a
    queue of active names followed by paused names as it is.  The flag it
    flips is what [paused[x]] reads: the stored flag, false for a name
    without one, but a member of [Object.prototype] for a name that finds
    one there, so that "constructor" is stored as not paused. *)
Theorem toggle_absent_name (x : string) (s : state) :
  ~ In x (queue s) ->
  partitioned s ->
  queue (toggle x s) = queue s /\
  paused (toggle x s) = <[x := negb (is_paused (paused s) x)]> (paused s) /\
  (forall b, paused s !! x = Some b -> paused (toggle x s) !! x = Some (negb b)) /\
  (paused s !! x = None ->
     paused (toggle x s) !! x = Some (negb (Js.inherited x))) /\
  activeQueue (toggle x s) = activeQueue s /\
  length (togglePause x s) = 1%nat.
Proof.
  intros Hout Hpart.
  assert (forall f : bool -> bool,
            List.filter (fun n => f (is_paused
              (<[x := negb (is_paused (paused s) x)]> (paused s)) n)) (queue s)
            = List.filter (fun n => f (is_paused (paused s) n)) (queue s))
    as Hsame.
  { intros f. apply List.filter_ext_in. intros n Hn.
    rewrite is_paused_insert.
    destruct (String.eqb_spec n x) as [->|]; [contradiction|reflexivity]. }
  assert (queue (toggle x s) = queue s) as Hq.
  { rewrite toggle_eq. cbv zeta. cbn [queue].
    rewrite (Hsame negb), (Hsame (fun b => b)). symmetry. exact Hpart. }
  split; [assumption|]. split; [reflexivity|].
  split.
  { intros b Hb. rewrite toggle_eq. cbn [paused].
    now rewrite lookup_insert_eq, (is_paused_own _ _ _ Hb). }
  split.
  { intros Hnone. rewrite toggle_eq. cbn [paused].
    now rewrite lookup_insert_eq, is_paused_absent. }
  split; [|reflexivity].
  rewrite toggle_active. apply (Hsame negb).
Qed.

Lemma toggle_absent_name_witness :
  queue (toggle "Zed" stateA1234) = queue stateA1234 /\
  paused (toggle "Zed" stateA1234) !! "Zed" = Some true /\
  paused (toggle "constructor" stateA1234) !! "constructor" = Some false.
Proof.
  pose proof (toggle_absent_name "Zed" stateA1234
                ltac:(vm_compute; intuition discriminate) eq_refl)
    as (Hq & _ & _ & Hzed & _).
  pose proof (toggle_absent_name "constructor" stateA1234
                ltac:(vm_compute; intuition discriminate) eq_refl)
    as (_ & _ & _ & Hmember & _).
  split; [assumption|]. split.
  - apply Hzed. reflexivity.
  - apply Hmember. reflexivity.
Defined.
